(** * QAEWO route optimizer: the React front end and the optimizer core

    The front end (App.js, WaypointManager.js, SearchBar.js) is embedded
    from its source.  React state is a record, every [setX] call is a
    record update, and a handler is the composition of the updates it
    performs, in program order.  JavaScript strings are sequences of code
    units; the model covers code units below 256 (Latin-1), which is where
    every name of the city table lives. *)

From Stdlib Require Import String Ascii List Bool Arith Lia QArith Qabs Qround ZArith Permutation Sorted.
Import ListNotations.
Local Close Scope Q_scope.
Local Open Scope string_scope.
Local Open Scope list_scope.
Local Open Scope nat_scope.

(** ** JavaScript string helpers used by SearchBar.js *)

Module Js.

(** [String.prototype.toLowerCase] on one Latin-1 code unit: A-Z, and the
    accented capitals 0xC0-0xDE except the multiplication sign 0xD7. *)
Definition lowerChar (c : ascii) : ascii :=
  let n := nat_of_ascii c in
  if ((65 <=? n) && (n <=? 90))
     || ((192 <=? n) && (n <=? 222) && negb (n =? 215))
  then ascii_of_nat (n + 32) else c.

Fixpoint toLowerCase (s : string) : string :=
  match s with
  | EmptyString => EmptyString
  | String c s' => String (lowerChar c) (toLowerCase s')
  end.

(** White space of [String.prototype.trim] below 256: TAB, LF, VT, FF, CR,
    SPACE and NBSP. *)
Definition isWhiteSpace (c : ascii) : bool :=
  let n := nat_of_ascii c in
  ((9 <=? n) && (n <=? 13)) || (n =? 32) || (n =? 160).

Fixpoint trimStart (s : string) : string :=
  match s with
  | EmptyString => EmptyString
  | String c s' => if isWhiteSpace c then trimStart s' else s
  end.

(** [trimEnd] drops the trailing white space: a character stays when it is
    not white space or when something that stays follows it. *)
Fixpoint trimEnd (s : string) : string :=
  match s with
  | EmptyString => EmptyString
  | String c s' =>
      match trimEnd s' with
      | EmptyString => if isWhiteSpace c then EmptyString else String c EmptyString
      | r => String c r
      end
  end.

Definition trim (s : string) : string := trimEnd (trimStart s).

(** [startsWith t s]: [t] is a prefix of [s]. *)
Fixpoint startsWith (t s : string) : bool :=
  match t, s with
  | EmptyString, _ => true
  | String _ _, EmptyString => false
  | String a t', String b s' => Ascii.eqb a b && startsWith t' s'
  end.

(** [s.includes(t)]: [t] occurs in [s] at some offset. *)
Fixpoint includes (s t : string) : bool :=
  startsWith t s ||
  match s with
  | EmptyString => false
  | String _ s' => includes s' t
  end.

(** [t] occurs in [s]: some text before it, some text after it. *)
Definition contains (s t : string) : Prop :=
  exists a b : string, s = (a ++ t ++ b)%string.

(** [a.slice(0, n)] on an array. *)
Definition slice0 {A : Type} (n : nat) (a : list A) : list A := firstn n a.

(** [x || d] where [x] is a string or undefined: the empty string and
    undefined are falsy. *)
Definition orDefault (x : option string) (d : string) : string :=
  match x with
  | Some EmptyString => d
  | Some s => s
  | None => d
  end.

End Js.

(** ** SearchBar.js *)

Module SearchBar.

Record City := { name : string; state : string; lat : Q; lng : Q }.

Definition mk (n s : string) (la lo : Q) : City :=
  {| name := n; state := s; lat := la; lng := lo |}.

Definition INDIAN_CITIES : list City :=
  [ mk "Chennai" "Tamil Nadu" (130827 # 10000) (802707 # 10000);
    mk "Coimbatore" "Tamil Nadu" (110168 # 10000) (769558 # 10000);
    mk "Madurai" "Tamil Nadu" (99252 # 10000) (781198 # 10000);
    mk "Tiruchirappalli" "Tamil Nadu" (107905 # 10000) (787047 # 10000);
    mk "Salem" "Tamil Nadu" (116643 # 10000) (781460 # 10000);
    mk "Tirunelveli" "Tamil Nadu" (87139 # 10000) (777567 # 10000);
    mk "Erode" "Tamil Nadu" (113410 # 10000) (777172 # 10000);
    mk "Vellore" "Tamil Nadu" (129165 # 10000) (791325 # 10000);
    mk "Thoothukudi" "Tamil Nadu" (87642 # 10000) (781348 # 10000);
    mk "Dindigul" "Tamil Nadu" (103673 # 10000) (779803 # 10000);
    mk "Thanjavur" "Tamil Nadu" (107870 # 10000) (791378 # 10000);
    mk "Ranipet" "Tamil Nadu" (129249 # 10000) (793333 # 10000);
    mk "Sivakasi" "Tamil Nadu" (94523 # 10000) (777906 # 10000);
    mk "Karur" "Tamil Nadu" (109601 # 10000) (780766 # 10000);
    mk "Kanchipuram" "Tamil Nadu" (128342 # 10000) (797036 # 10000);
    mk "Tiruppur" "Tamil Nadu" (111075 # 10000) (773398 # 10000);
    mk "Nagercoil" "Tamil Nadu" (81790 # 10000) (774338 # 10000);
    mk "Cuddalore" "Tamil Nadu" (117480 # 10000) (797714 # 10000);
    mk "Kumbakonam" "Tamil Nadu" (109617 # 10000) (793881 # 10000);
    mk "Puducherry" "Puducherry UT" (119416 # 10000) (798083 # 10000);
    mk "Karaikal" "Puducherry UT" (109254 # 10000) (798380 # 10000);
    mk "Yanam" "Puducherry UT" (167333 # 10000) (822167 # 10000);
    mk "Mahe" "Puducherry UT" (117009 # 10000) (755371 # 10000);
    mk "Mumbai" "Maharashtra" (190760 # 10000) (728777 # 10000);
    mk "Delhi" "Delhi" (287041 # 10000) (771025 # 10000);
    mk "Bangalore" "Karnataka" (129716 # 10000) (775946 # 10000);
    mk "Hyderabad" "Telangana" (173850 # 10000) (784867 # 10000);
    mk "Ahmedabad" "Gujarat" (230225 # 10000) (725714 # 10000);
    mk "Pune" "Maharashtra" (185204 # 10000) (738567 # 10000);
    mk "Kolkata" "West Bengal" (225726 # 10000) (883639 # 10000);
    mk "Surat" "Gujarat" (211702 # 10000) (728311 # 10000);
    mk "Jaipur" "Rajasthan" (269124 # 10000) (757873 # 10000);
    mk "Lucknow" "Uttar Pradesh" (268467 # 10000) (809462 # 10000);
    mk "Kanpur" "Uttar Pradesh" (264499 # 10000) (803319 # 10000);
    mk "Nagpur" "Maharashtra" (211458 # 10000) (790882 # 10000);
    mk "Visakhapatnam" "Andhra Pradesh" (176868 # 10000) (832185 # 10000);
    mk "Bhopal" "Madhya Pradesh" (232599 # 10000) (774126 # 10000);
    mk "Patna" "Bihar" (255941 # 10000) (851376 # 10000);
    mk "Vadodara" "Gujarat" (223072 # 10000) (731812 # 10000);
    mk "Ghaziabad" "Uttar Pradesh" (286692 # 10000) (774538 # 10000);
    mk "Ludhiana" "Punjab" (309010 # 10000) (758573 # 10000);
    mk "Agra" "Uttar Pradesh" (271767 # 10000) (780081 # 10000);
    mk "Kochi" "Kerala" (99312 # 10000) (762673 # 10000);
    mk "Thiruvananthapuram" "Kerala" (85241 # 10000) (769366 # 10000);
    mk "Kozhikode" "Kerala" (112588 # 10000) (757804 # 10000) ].

(** The component state the search effect writes. *)
Record SearchState := {
  searchTerm : string;
  filteredCities : list City;
  showResults : bool
}.

(** The predicate of the [filter] call; note that it uses [searchTerm]
    itself, not the trimmed term of the guard. *)
Definition cityMatches (searchTerm : string) (city : City) : bool :=
  Js.includes (Js.toLowerCase (name city)) (Js.toLowerCase searchTerm)
  || Js.includes (Js.toLowerCase (state city)) (Js.toLowerCase searchTerm).

(** The name or the state contains the term, case-insensitively. *)
Definition matchesTerm (searchTerm : string) (city : City) : Prop :=
  Js.contains (Js.toLowerCase (name city)) (Js.toLowerCase searchTerm)
  \/ Js.contains (Js.toLowerCase (state city)) (Js.toLowerCase searchTerm).

(** The [useEffect] that runs whenever [searchTerm] changes. *)
Definition searchEffect (term : string) : SearchState :=
  if 2 <=? String.length (Js.trim term) then
    {| searchTerm := term;
       filteredCities := Js.slice0 8 (filter (cityMatches term) INDIAN_CITIES);
       showResults := true |}
  else
    {| searchTerm := term; filteredCities := []; showResults := false |}.

(** What the component renders as result rows:
    [showResults && filteredCities.length > 0 && filteredCities.map(...)]. *)
Definition shownResults (st : SearchState) : list City :=
  if showResults st && negb (Nat.eqb (List.length (filteredCities st)) 0)
  then filteredCities st else [].

(** [handleCitySelect]: the location object handed to [onLocationSelect]. *)
Record Location := {
  loc_name : string;
  loc_address : option string;
  loc_lat : Q;
  loc_lng : Q
}.

Definition handleCitySelect (city : City) : Location :=
  {| loc_name := name city;
     loc_address := Some (name city ++ ", " ++ state city)%string;
     loc_lat := lat city;
     loc_lng := lng city |}.

End SearchBar.

(** ** App.js and WaypointManager.js *)

Module App.

Import SearchBar.

(** An entry of the [waypoints] state: a location tagged with its
    [type] ('start', 'destination' or 'waypoint'). *)
Record Waypoint := {
  lat : Q;
  lng : Q;
  name : string;
  address : option string;
  type : string
}.

(** The object [{lat, lng, name, address}] sent to the back end. *)
Record Payload := {
  p_lat : Q;
  p_lng : Q;
  p_name : string;
  p_address : option string
}.

Section WithRoute.

(** [response.data.data]: the route object of the back end, which the front
    end stores as it is. *)
Variable Route : Type.

Record AppState := {
  waypoints : list Waypoint;
  optimizedRoute : option Route;
  isOptimizing : bool;
  backendStatus : string;
  isDarkTheme : bool;
  error : option string
}.

Definition setWaypoints (w : list Waypoint) (st : AppState) : AppState :=
  {| waypoints := w; optimizedRoute := optimizedRoute st;
     isOptimizing := isOptimizing st; backendStatus := backendStatus st;
     isDarkTheme := isDarkTheme st; error := error st |}.

Definition setOptimizedRoute (r : option Route) (st : AppState) : AppState :=
  {| waypoints := waypoints st; optimizedRoute := r;
     isOptimizing := isOptimizing st; backendStatus := backendStatus st;
     isDarkTheme := isDarkTheme st; error := error st |}.

Definition setIsOptimizing (b : bool) (st : AppState) : AppState :=
  {| waypoints := waypoints st; optimizedRoute := optimizedRoute st;
     isOptimizing := b; backendStatus := backendStatus st;
     isDarkTheme := isDarkTheme st; error := error st |}.

Definition setError (e : option string) (st : AppState) : AppState :=
  {| waypoints := waypoints st; optimizedRoute := optimizedRoute st;
     isOptimizing := isOptimizing st; backendStatus := backendStatus st;
     isDarkTheme := isDarkTheme st; error := e |}.

Definition handleAddWaypoint (waypoint : Waypoint) (st : AppState) : AppState :=
  setError None (setWaypoints (waypoints st ++ [waypoint]) st).

Definition isType (t : string) (w : Waypoint) : bool := String.eqb (type w) t.

(** The body of an axios response, [response.data]. *)
Record ResponseData := {
  success : bool;
  data : option Route;
  r_error : option string
}.

(** What [await optimizeRoute(...)] does: it resolves with a response whose
    [data] may be missing, or it throws an error [err] of which only
    [err.response?.data?.error] is read. *)
Inductive Outcome :=
| Resolved (body : option ResponseData)
| Thrown (responseError : option string).

Definition toPayload (w : Waypoint) : Payload :=
  {| p_lat := lat w; p_lng := lng w; p_name := name w; p_address := address w |}.

(** One run of [handleOptimize]: what was sent, if anything, and the state
    after the handler has finished.  [optimizeRoute] of services/api.js
    copies the four fields of every entry once more and posts the list;
    it is the parameter [optimizeRoute] below. *)
Record Run := {
  sent : option (list Payload);
  final : AppState
}.

Definition handleOptimize (optimizeRoute : list Payload -> Outcome)
    (st : AppState) : Run :=
  let start := find (isType "start") (waypoints st) in
  let destination := find (isType "destination") (waypoints st) in
  let intermediateWaypoints := filter (isType "waypoint") (waypoints st) in
  match start, destination with
  | Some start, Some destination =>
      let st1 := setError None (setIsOptimizing true st) in
      let orderedWaypoints :=
        map toPayload ([start] ++ intermediateWaypoints ++ [destination]) in
      let st2 :=
        match optimizeRoute orderedWaypoints with
        | Resolved (Some body) =>
            if success body then setOptimizedRoute (data body) st1
            else setError (Some (Js.orDefault (r_error body) "Optimization failed")) st1
        | Resolved None =>
            (* response.data.success throws a TypeError, caught below *)
            setError (Some (Js.orDefault None "Failed to connect to backend")) st1
        | Thrown e =>
            setError (Some (Js.orDefault e "Failed to connect to backend")) st1
        end in
      {| sent := Some orderedWaypoints; final := setIsOptimizing false st2 |}
  | _, _ =>
      {| sent := None;
         final := setError (Some "Please add both start point and destination") st |}
  end.

(** WaypointManager.js: the three select handlers call [onAddWaypoint],
    which App.js binds to [handleAddWaypoint]. *)
Definition withType (location : Location) (t : string) : Waypoint :=
  {| lat := loc_lat location; lng := loc_lng location;
     name := loc_name location; address := loc_address location; type := t |}.

Definition handleStartSelect (location : Location) (st : AppState) : AppState :=
  handleAddWaypoint (withType location "start") st.

Definition handleDestSelect (location : Location) (st : AppState) : AppState :=
  handleAddWaypoint (withType location "destination") st.

Definition handleWaypointSelect (location : Location) (st : AppState) : AppState :=
  handleAddWaypoint (withType location "waypoint") st.

(** The response did not report success: [success] is false, the body is
    missing, or the request threw. *)
Definition failed (o : Outcome) : Prop :=
  match o with
  | Resolved (Some body) => success body = false
  | Resolved None => True
  | Thrown _ => True
  end.

(** The end points the handler found, at most one of each kind. *)
Definition endpoints (st : AppState) : list Waypoint :=
  match find (isType "start") (waypoints st) with Some s => [s] | None => [] end
  ++ match find (isType "destination") (waypoints st) with Some d => [d] | None => [] end.

(** What WaypointManager displays as starting point and as destination. *)
Definition startPoint (st : AppState) : option Waypoint :=
  find (isType "start") (waypoints st).

Definition destination (st : AppState) : option Waypoint :=
  find (isType "destination") (waypoints st).

End WithRoute.

Arguments waypoints {Route}.
Arguments optimizedRoute {Route}.
Arguments isOptimizing {Route}.
Arguments backendStatus {Route}.
Arguments isDarkTheme {Route}.
Arguments error {Route}.
Arguments setWaypoints {Route}.
Arguments setOptimizedRoute {Route}.
Arguments setIsOptimizing {Route}.
Arguments setError {Route}.
Arguments handleAddWaypoint {Route}.
Arguments success {Route}.
Arguments data {Route}.
Arguments r_error {Route}.
Arguments Resolved {Route}.
Arguments Thrown {Route}.
Arguments sent {Route}.
Arguments final {Route}.
Arguments handleOptimize {Route}.
Arguments handleStartSelect {Route}.
Arguments handleDestSelect {Route}.
Arguments handleWaypointSelect {Route}.
Arguments failed {Route}.
Arguments endpoints {Route}.
Arguments startPoint {Route}.
Arguments destination {Route}.

End App.

(** ** The optimizer core

    The optimizer runs in the Python back end (backend/quantum/ in the
    project tree of the README); the front end only posts to it through
    [optimizeRoute], and the code of the back end is not part of the
    front-end sources embedded above.  Every definition of this module is
    therefore modelled from the specification of the core, with rationals
    for the reals.  Interior
    waypoints carry the indices [1 .. n] of the caller's list of [n + 2]
    locations; index [0] is the start and index [n + 1] the end. *)

Module Core.

Local Open Scope Q_scope.

(** *** Distance matrix *)

Record Entry := { distance_km : Q; duration_min : Q }.

(** Modelled from the spec: the Distance Matrix of the missing back end,
    once loaded, "an N x N table of (distance_km, duration_min) for every
    ordered pair of Locations", read-only during a run; a table is a
    function of the two indices. *)
Definition Matrix := nat -> nat -> Entry.

Definition dist (D : Matrix) (i j : nat) : Q := distance_km (D i j).
Definition dur (D : Matrix) (i j : nat) : Q := duration_min (D i j).

(** *** Candidate codec *)

Definition Tour := list nat.
Definition KeyVector := list Q.

(** Order on (key, index) pairs: by key ascending, ties by index
    ascending. *)
Definition key_le (a b : Q * nat) : bool :=
  if Qeq_bool (fst a) (fst b) then (snd a <=? snd b)%nat
  else Qle_bool (fst a) (fst b).

(** The same order as a proposition. *)
Definition kle (a b : Q * nat) : Prop :=
  fst a < fst b \/ (fst a == fst b /\ (snd a <= snd b)%nat).

Fixpoint insert (x : Q * nat) (l : list (Q * nat)) : list (Q * nat) :=
  match l with
  | [] => [x]
  | y :: l' => if key_le x y then x :: l else y :: insert x l'
  end.

Fixpoint sort (l : list (Q * nat)) : list (Q * nat) :=
  match l with
  | [] => []
  | x :: l' => insert x (sort l')
  end.

(** Modelled from the spec: [decode(keyVector) -> Tour] of the Candidate
    Codec, whose code is in the missing back end, "sort interior indices
    by key, stable tie-break by index".  The key at position [d]
    belongs to interior index [d + 1]. *)
Definition decode (keys : KeyVector) : Tour :=
  map snd (sort (combine keys (seq 1 (length keys)))).

Fixpoint position (i : nat) (t : Tour) : option nat :=
  match t with
  | [] => None
  | x :: t' => if (x =? i)%nat then Some 0%nat
               else option_map S (position i t')
  end.

(** The key of the waypoint visited at place [k] of [n]: evenly spaced
    inside the unit interval. *)
Definition spaced (n k : nat) : Q :=
  Z.of_nat (k + 1) # Pos.of_nat (n + 1).

(** Modelled from the spec: [encode(tour) -> keyVector] of the Candidate
    Codec, whose code is in the missing back end, "canonical inverse
    producing evenly spaced keys consistent with the tour order": the
    waypoint visited at place [k] gets the key [spaced n k]. *)
Definition encode (t : Tour) : KeyVector :=
  map (fun i => match position i t with
                | Some k => spaced (length t) k
                | None => 0
                end)
      (seq 1 (length t)).

(** A valid Tour: "a permutation of the interior-waypoint indices". *)
Definition valid_tour (t : Tour) : Prop :=
  Permutation t (seq 1 (length t)).

(** "the full path start -> interior-in-tour-order -> end". *)
Definition full_path (t : Tour) : list nat :=
  0%nat :: t ++ [S (length t)].

(** Sum of a per-leg quantity over the consecutive legs of a path. *)
Fixpoint path_sum (leg : nat -> nat -> Q) (p : list nat) : Q :=
  match p with
  | a :: (b :: _) as rest => leg a b + path_sum leg rest
  | _ => 0
  end.

Definition path_cost (D : Matrix) (p : list nat) : Q := path_sum (dist D) p.
Definition path_duration (D : Matrix) (p : list nat) : Q := path_sum (dur D) p.

(** Modelled from the spec: [fitness(tour) -> cost] of the Candidate
    Codec, whose code is in the missing back end, "sum of matrix
    distance_km over the full path". *)
Definition fitness (D : Matrix) (t : Tour) : Q := path_cost D (full_path t).

(** *** Local search refiner (2-opt) *)

Definition Qlt_bool (a b : Q) : bool := negb (Qle_bool b a).

(** The 2-opt move on the edges [(i, i+1)] and [(j, j+1)]: the sub-path at
    the places [i+1 .. j] is reversed. *)
Definition two_opt_move (p : list nat) (i j : nat) : list nat :=
  firstn (i + 1) p ++ rev (firstn (j - i) (skipn (i + 1) p)) ++ skipn (j + 1) p.

(** All pairs of edges [i < j] of a path with [m] edges, in scan order. *)
Definition edge_pairs (m : nat) : list (nat * nat) :=
  flat_map (fun i => map (fun j => (i, j)) (seq (i + 1) (m - 1 - i))) (seq 0 m).

(** The cost delta of a move is the cost of the moved path minus the cost
    of the path; the matrix need not be symmetric, so the reversed legs are
    recomputed. *)
Definition improves (D : Matrix) (p : list nat) (ij : nat * nat) : bool :=
  Qlt_bool (path_cost D (two_opt_move p (fst ij) (snd ij))) (path_cost D p).

(** One full scan: the first improving move, if any. *)
Definition first_improving (D : Matrix) (p : list nat) : option (nat * nat) :=
  find (improves D p) (edge_pairs (length p - 1)).

(** Modelled from the spec: the Local Search Refiner of the missing back
    end, first-improvement variant, "apply the first improving move found,
    then restart the scan.  Stop when a full scan finds no improving move
    or a pass-count cap is hit".  The flag tells which of the two ended
    the run: [true] for the clean scan. *)
Fixpoint refine (cap : nat) (D : Matrix) (p : list nat) : list nat * bool :=
  match cap with
  | O => (p, false)
  | S cap' =>
      match first_improving D p with
      | None => (p, true)
      | Some ij => refine cap' D (two_opt_move p (fst ij) (snd ij))
      end
  end.

(** No single 2-opt move strictly lowers the cost of [p]. *)
Definition two_opt_optimal (D : Matrix) (p : list nat) : Prop :=
  forall i j : nat, (i < j)%nat -> (j + 1 < length p)%nat ->
    ~ path_cost D (two_opt_move p i j) < path_cost D p.

(** All lists of length [n] over the places of [pool]; every arrangement
    of a path is among them. *)
Fixpoint words (n : nat) (pool : list nat) : list (list nat) :=
  match n with
  | O => [[]]
  | S n' => flat_map (fun x => map (cons x) (words n' pool)) pool
  end.

(** How many of these are strictly cheaper than [p]: the number of passes
    that can still improve [p] is at most this. *)
Definition rank (D : Matrix) (pool p : list nat) : nat :=
  length (filter (fun q => Qlt_bool (path_cost D q) (path_cost D p))
                 (words (length pool) pool)).

(** *** Effects: the random stream and the wall clock

    A run threads one explicit world through every call: the state of the
    random generator and the number of clock readings taken so far.  The
    clock itself is ambient: its [k]-th reading is [clock k]. *)

Definition State (S A : Type) : Type := S -> A * S.

Definition ret {S A : Type} (a : A) : State S A := fun s => (a, s).

Definition bind {S A B : Type} (m : State S A) (k : A -> State S B) : State S B :=
  fun s => let (a, s') := m s in k a s'.

Notation "x <- m ;; k" := (bind m (fun x => k))
  (at level 61, m at next level, right associativity).

Fixpoint mapM {S A B : Type} (f : A -> State S B) (l : list A) : State S (list B) :=
  match l with
  | [] => ret []
  | x :: l' => y <- f x ;; ys <- mapM f l' ;; ret (y :: ys)
  end.

Fixpoint replicateM {S A : Type} (n : nat) (m : State S A) : State S (list A) :=
  match n with
  | O => ret []
  | S n' => x <- m ;; xs <- replicateM n' m ;; ret (x :: xs)
  end.

(** [always m P]: the value computed by [m] satisfies [P], from every
    state. *)
Definition always {S A : Type} (m : State S A) (P : A -> Prop) : Prop :=
  forall s : S, P (fst (m s)).

(** The explicit RNG/seed object of the design notes: a state made from
    the seed, and a uniform draw from the unit interval that returns the
    next state. *)
Class Rng (R : Type) := {
  seed_rng : Z -> R;
  uniform : R -> Q * R
}.

(** The transcendental functions of the phases, as the arithmetic of the
    implementation provides them. *)
Class Numerics := {
  exp_ : Q -> Q;
  cos_ : Q -> Q;
  sin_ : Q -> Q;
  pi_ : Q;
  (** great-circle distance in km between (lat1, lon1) and (lat2, lon2) *)
  great_circle_km : Q -> Q -> Q -> Q -> Q
}.

Record Location := {
  id : nat;
  latitude : Q;
  longitude : Q;
  label : string
}.

(** What the routing provider returns: a table whose values may be
    non-finite ([None]). *)
Definition RawMatrix := list (list (option Q * option Q)).

(** [RoutingProvider.getMatrix(locations) -> Matrix | Error]; [None] is the
    failure. *)
Class RoutingProvider := {
  getMatrix : list Location -> option RawMatrix
}.

(** The optional configuration, followed by the constants the design
    leaves to the implementation. *)
Record Config := {
  population_size : nat;
  T1 : nat;
  T2 : nat;
  cooling : Q;
  spiral_b : Q;
  seed : Z;
  deadline : option Q;
  patience : nat;
  max_passes : nat;
  theta0 : Q;
  temperature0 : Q;
  amplitude0 : Q * Q;
  penalty : Q;
  fallback_speed_kmh : Q
}.

Record World (R : Type) := { rng : R; reads : nat }.
Arguments rng {R} _.
Arguments reads {R} _.

Definition finite_or (p : Q) (x : option Q) : Q :=
  match x with Some q => q | None => p end.

(** Modelled from the spec: the matrix load of the missing back end,
    "non-finite values are rejected at load and replaced with a large
    penalty constant"; a pair the table does not hold is treated like a
    non-finite one. *)
Definition load (p : Q) (raw : RawMatrix) : Matrix :=
  fun i j =>
    match nth_error raw i with
    | Some row =>
        match nth_error row j with
        | Some (d, t) =>
            {| distance_km := finite_or p d; duration_min := finite_or p t |}
        | None => {| distance_km := p; duration_min := p |}
        end
    | None => {| distance_km := p; duration_min := p |}
    end.

Record Candidate := { keys : KeyVector; cost : Q }.

Definition evaluate (D : Matrix) (ks : KeyVector) : Candidate :=
  {| keys := ks; cost := fitness D (decode ks) |}.

(** The better of two candidates; the first one stays on a tie. *)
Definition better (a b : Candidate) : Candidate :=
  if Qlt_bool (cost b) (cost a) then b else a.

Definition best_of (c : Candidate) (l : list Candidate) : Candidate :=
  fold_left better l c.

Definition zipWith {A B C : Type} (f : A -> B -> C) (l1 : list A) (l2 : list B) : list C :=
  map (fun p => f (fst p) (snd p)) (combine l1 l2).

Definition clip (x : Q) : Q :=
  if Qlt_bool x 0 then 0 else if Qlt_bool 1 x then 1 else x.

Record Qubit := { alpha : Q; beta : Q }.

Record QCandidate := { amplitudes : list Qubit; current : Candidate }.

Record QState := {
  qpop : list QCandidate;
  qbest : Candidate;
  temperature : Q;
  qstall : nat;
  qiters : nat;
  qcancelled : bool
}.

Record WState := {
  wpop : list Candidate;
  leader : Candidate;
  wstall : nat;
  witers : nat;
  wcancelled : bool
}.

Record SearchOutcome := {
  best : Candidate;
  quantum_iterations : nat;
  whale_iterations : nat;
  cancelled : bool
}.

(** Shape invariants of a run on [n] interior waypoints: every key vector
    and every amplitude vector has one entry per waypoint. *)
Definition sized (n : nat) (c : Candidate) : Prop := length (keys c) = n.

Definition qsized (n : nat) (c : QCandidate) : Prop :=
  length (amplitudes c) = n /\ sized n (current c).

Definition qstate_ok (n : nat) (s : QState) : Prop :=
  Forall (qsized n) (qpop s) /\ sized n (qbest s).

Definition wstate_ok (n : nat) (s : WState) : Prop :=
  Forall (sized n) (wpop s) /\ sized n (leader s).

(** The cached fitness of a candidate is the fitness of its tour. *)
Definition consistent (D : Matrix) (c : Candidate) : Prop :=
  cost c = fitness D (decode (keys c)).

(** Elitism with respect to a bound [b]: every cached fitness is the real
    one, and the best-ever candidate costs at most [b]. *)
Definition qstate_elite (D : Matrix) (b : Q) (s : QState) : Prop :=
  Forall (fun c => consistent D (current c)) (qpop s) /\
  consistent D (qbest s) /\ cost (qbest s) <= b.

Definition wstate_elite (D : Matrix) (b : Q) (s : WState) : Prop :=
  Forall (consistent D) (wpop s) /\
  consistent D (leader s) /\ cost (leader s) <= b.

Inductive Method := hybrid | fallback_geometric | trivial | budget_limited.

Record Segment := { seg_from : nat; seg_to : nat; seg_km : Q; seg_min : Q }.

Record OptimizationResult := {
  order : list nat;
  total_distance_km : Q;
  total_duration_min : Q;
  segments : list Segment;
  method : Method;
  iterations_quantum : nat;
  iterations_whale : nat;
  compute_time : Q;
  degraded : bool
}.

Inductive Error := InvalidInputError.

Fixpoint breakdown (D : Matrix) (p : list nat) : list Segment :=
  match p with
  | a :: (b :: _) as rest =>
      {| seg_from := a; seg_to := b; seg_km := dist D a b; seg_min := dur D a b |}
      :: breakdown D rest
  | _ => []
  end.

Section Pipeline.

Context {R : Type} {RNG : Rng R} {NUM : Numerics} {RP : RoutingProvider}.

Definition U01 : State (World R) Q :=
  fun w => let (u, r) := uniform (rng w) in (u, {| rng := r; reads := reads w |}).

Definition now (clock : nat -> Q) : State (World R) Q :=
  fun w => (clock (reads w), {| rng := rng w; reads := S (reads w) |}).

(** Modelled from the spec: the geometric fallback matrix of the missing
    back end, "from great-circle distance"; the duration is the distance
    at a fixed speed. *)
Definition fallback_matrix (cfg : Config) (locations : list Location) : Matrix :=
  fun i j =>
    match nth_error locations i, nth_error locations j with
    | Some a, Some b =>
        let d := if (i =? j)%nat then 0
                 else great_circle_km (latitude a) (longitude a)
                                      (latitude b) (longitude b) in
        {| distance_km := d; duration_min := d / fallback_speed_kmh cfg * 60 |}
    | _, _ => {| distance_km := penalty cfg; duration_min := penalty cfg |}
    end.

(** **** Quantum exploration phase *)

(** Annealed angle of iteration [t]: "proportional to (1 - t/T1)". *)
Definition anneal_angle (cfg : Config) (t : nat) : Q :=
  theta0 cfg * (1 - inject_Z (Z.of_nat t) / inject_Z (Z.of_nat (T1 cfg))).

(** Rotation of one dimension toward the best candidate: the weight
    [alpha^2] of the best key grows with a positive angle. *)
Definition rotate (theta : Q) (q : Qubit) : Qubit :=
  {| alpha := alpha q * cos_ theta + beta q * sin_ theta;
     beta := beta q * cos_ theta - alpha q * sin_ theta |}.

(** "key = alpha^2 * bestKey[dim] + beta^2 * U(0,1)". *)
Definition collapse (q : Qubit) (bestKey u : Q) : Q :=
  alpha q * alpha q * bestKey + beta q * beta q * u.

Definition collapse_all (qs : list Qubit) (bestKeys us : list Q) : KeyVector :=
  zipWith (fun q bu => collapse q (fst bu) (snd bu)) qs (combine bestKeys us).

(** Modelled from the spec: steps 1-4 of the Quantum Exploration Phase of
    the missing back end, for one candidate at iteration [t]: rotate,
    collapse, decode and evaluate, then the annealing acceptance "accept
    with probability exp(-delta / T)", decided by one uniform draw. *)
Definition quantum_move (cfg : Config) (D : Matrix) (t : nat) (temp : Q)
    (gbest : Candidate) (c : QCandidate) : State (World R) QCandidate :=
  let amps := map (rotate (anneal_angle cfg t)) (amplitudes c) in
  us <- replicateM (length amps) U01 ;;
  let cand := evaluate D (collapse_all amps (keys gbest) us) in
  if Qlt_bool (cost cand) (cost (current c)) then
    ret {| amplitudes := amps; current := cand |}
  else
    u <- U01 ;;
    if Qlt_bool u (exp_ (- (cost cand - cost (current c)) / temp)) then
      ret {| amplitudes := amps; current := cand |}
    else
      ret {| amplitudes := amps; current := current c |}.

Definition quantum_iteration (cfg : Config) (D : Matrix) (t : nat) (s : QState)
    : State (World R) QState :=
  pop' <- mapM (quantum_move cfg D t (temperature s) (qbest s)) (qpop s) ;;
  let best' := best_of (qbest s) (map current pop') in
  ret {| qpop := pop';
         qbest := best';
         temperature := temperature s * cooling cfg;
         qstall := if Qlt_bool (cost best') (cost (qbest s)) then O else S (qstall s);
         qiters := S (qiters s);
         qcancelled := false |}.

Definition qcancel (s : QState) : QState :=
  {| qpop := qpop s; qbest := qbest s; temperature := temperature s;
     qstall := qstall s; qiters := qiters s; qcancelled := true |}.

(** Modelled from the spec: the iterations [ts] of the Quantum
    Exploration Phase of the missing back end, with the early exit "after
    patience consecutive iterations without a new global best" and the
    cancellation check between iterations. *)
Fixpoint quantum_loop (cfg : Config) (D : Matrix) (cancel : State (World R) bool)
    (ts : list nat) (s : QState) : State (World R) QState :=
  match ts with
  | [] => ret s
  | t :: ts' =>
      if (patience cfg <=? qstall s)%nat then ret s
      else
        stop <- cancel ;;
        if (stop : bool) then ret (qcancel s)
        else s' <- quantum_iteration cfg D t s ;;
             quantum_loop cfg D cancel ts' s'
  end.

(** A fresh candidate: uniform keys and the initial amplitudes. *)
Definition init_candidate (cfg : Config) (D : Matrix) (n : nat)
    : State (World R) QCandidate :=
  ks <- replicateM n U01 ;;
  ret {| amplitudes := repeat {| alpha := fst (amplitude0 cfg);
                                 beta := snd (amplitude0 cfg) |} n;
         current := evaluate D ks |}.

(** The input order as a candidate: the keys that [encode] gives to the
    tour 1, 2, ..., n, and the initial amplitudes. *)
Definition input_order_candidate (cfg : Config) (D : Matrix) (n : nat) : QCandidate :=
  {| amplitudes := repeat {| alpha := fst (amplitude0 cfg);
                             beta := snd (amplitude0 cfg) |} n;
     current := evaluate D (encode (seq 1 n)) |}.

(** Modelled from the spec: the creation of the Population "at the start
    of the Quantum phase" in the missing back end.  The design does not
    say how the first candidates are drawn; it requires that the returned
    tour is never worse than the input order and that the best-ever
    candidate is never dropped.  The first member is therefore the input
    order, and the other [population_size - 1] members have uniform keys;
    the population holds at least one candidate. *)
Definition init_quantum (cfg : Config) (D : Matrix) (n : nat)
    : State (World R) QState :=
  let c0 := input_order_candidate cfg D n in
  rest <- replicateM (population_size cfg - 1) (init_candidate cfg D n) ;;
  ret {| qpop := c0 :: rest;
         qbest := best_of (current c0) (map current rest);
         temperature := temperature0 cfg;
         qstall := O; qiters := O; qcancelled := false |}.

(** **** Whale exploitation phase *)

(** Control parameter "linearly decreasing from 2 to 0 across T2". *)
Definition control_a (cfg : Config) (t : nat) : Q :=
  2 * (1 - inject_Z (Z.of_nat t) / inject_Z (Z.of_nat (T2 cfg))).

(** "X' = Xtarget - A * |C * Xtarget - X|", for the leader (encircling) or
    for a random member (search). *)
Definition encircle (A C : Q) (target x : KeyVector) : KeyVector :=
  zipWith (fun t xi => t - A * Qabs (C * t - xi)) target x.

(** "X' = |Xleader - X| * e^(b l) * cos(2 pi l) + Xleader". *)
Definition spiral (b l : Q) (lead x : KeyVector) : KeyVector :=
  zipWith (fun t xi => Qabs (t - xi) * exp_ (b * l) * cos_ (2 * pi_ * l) + t) lead x.

Definition pick (u : Q) (pop : list Candidate) (x : Candidate) : Candidate :=
  nth (Z.to_nat (Qfloor (u * inject_Z (Z.of_nat (length pop))))) pop x.

(** Modelled from the spec: one whale of the Whale Exploitation Phase of
    the missing back end, at control value [a]: encircling, search or
    spiral attack, clipping and greedy acceptance.  [lead] and [pop] are
    the leader and the population as they stood at the end of the
    previous iteration. *)
Definition whale_move (cfg : Config) (D : Matrix) (a : Q) (lead : Candidate)
    (pop : list Candidate) (x : Candidate) : State (World R) Candidate :=
  r1 <- U01 ;;
  r2 <- U01 ;;
  p <- U01 ;;
  let A := 2 * a * r1 - a in
  let C := 2 * r2 in
  x' <- (if Qlt_bool p (1 # 2) then
           if Qlt_bool (Qabs A) 1 then ret (encircle A C (keys lead) (keys x))
           else u <- U01 ;;
                ret (encircle A C (keys (pick u pop x)) (keys x))
         else u <- U01 ;;
              ret (spiral (spiral_b cfg) (2 * u - 1) (keys lead) (keys x))) ;;
  let cand := evaluate D (map clip x') in
  ret (if Qlt_bool (cost cand) (cost x) then cand else x).

Definition whale_iteration (cfg : Config) (D : Matrix) (t : nat) (s : WState)
    : State (World R) WState :=
  pop' <- mapM (whale_move cfg D (control_a cfg t) (leader s) (wpop s)) (wpop s) ;;
  let lead' := best_of (leader s) pop' in
  ret {| wpop := pop';
         leader := lead';
         wstall := if Qlt_bool (cost lead') (cost (leader s)) then O else S (wstall s);
         witers := S (witers s);
         wcancelled := false |}.

Definition wcancel (s : WState) : WState :=
  {| wpop := wpop s; leader := leader s; wstall := wstall s;
     witers := witers s; wcancelled := true |}.

Fixpoint whale_loop (cfg : Config) (D : Matrix) (cancel : State (World R) bool)
    (ts : list nat) (s : WState) : State (World R) WState :=
  match ts with
  | [] => ret s
  | t :: ts' =>
      if (patience cfg <=? wstall s)%nat then ret s
      else
        stop <- cancel ;;
        if (stop : bool) then ret (wcancel s)
        else s' <- whale_iteration cfg D t s ;;
             whale_loop cfg D cancel ts' s'
  end.

(** The canonical key vector of a candidate's tour; its cost is kept. *)
Definition canonical (c : Candidate) : Candidate :=
  {| keys := encode (decode (keys c)); cost := cost c |}.

(** The exploitation phase is seeded from the exploration phase through
    [encode]. *)
Definition seed_whales (q : QState) : WState :=
  {| wpop := map (fun c => canonical (current c)) (qpop q);
     leader := canonical (qbest q);
     wstall := O; witers := O; wcancelled := false |}.

(** **** Orchestrator *)

(** Modelled from the spec: the states Exploring and Exploiting of the
    orchestrator of the missing back end; a cancellation during
    exploration skips the exploitation. *)
Definition search (cfg : Config) (D : Matrix) (n : nat)
    (cancel : State (World R) bool) : State (World R) SearchOutcome :=
  q0 <- init_quantum cfg D n ;;
  q <- quantum_loop cfg D cancel (seq 1 (T1 cfg)) q0 ;;
  if qcancelled q then
    ret {| best := qbest q; quantum_iterations := qiters q;
           whale_iterations := O; cancelled := true |}
  else
    w <- whale_loop cfg D cancel (seq 1 (T2 cfg)) (seed_whales q) ;;
    ret {| best := leader w; quantum_iterations := qiters q;
           whale_iterations := witers w; cancelled := wcancelled w |}.

(** The deadline check: with no deadline configured the clock is not
    read. *)
Definition expired (cfg : Config) (clock : nat -> Q) (t0 : Q)
    : State (World R) bool :=
  match deadline cfg with
  | None => ret false
  | Some d => t <- now clock ;; ret (Qlt_bool d (t - t0))
  end.

Definition assemble (D : Matrix) (p : list nat) (m : Method) (qi wi : nat)
    (time : Q) (dg : bool) : OptimizationResult :=
  {| order := p;
     total_distance_km := path_cost D p;
     total_duration_min := path_duration D p;
     segments := breakdown D p;
     method := m;
     iterations_quantum := qi;
     iterations_whale := wi;
     compute_time := time;
     degraded := dg |}.

(** MatrixReady: the provider's matrix, or the geometric fallback and the
    degraded mark. *)
Definition matrix_ready (cfg : Config) (locations : list Location) : Matrix * bool :=
  match getMatrix locations with
  | Some raw => (load (penalty cfg) raw, false)
  | None => (fallback_matrix cfg locations, true)
  end.

Definition method_tag (was_cancelled dg : bool) : Method :=
  if was_cancelled then budget_limited
  else if dg then fallback_geometric else hybrid.

(** Modelled from the spec: [optimize(locations, config)] of the missing
    back end, the state machine Init, MatrixReady, Exploring, Exploiting,
    Refining, Done. *)
Definition optimize (cfg : Config) (clock : nat -> Q) (locations : list Location)
    : State (World R) (Error + OptimizationResult) :=
  t0 <- now clock ;;
  if (length locations <? 2)%nat then ret (inl InvalidInputError)
  else
    let n := (length locations - 2)%nat in
    let Dd := matrix_ready cfg locations in
    if (n <=? 1)%nat then
      t1 <- now clock ;;
      ret (inr (assemble (fst Dd) (seq 0 (length locations)) trivial O O
                         (t1 - t0) (snd Dd)))
    else
      out <- search cfg (fst Dd) n (expired cfg clock t0) ;;
      let refined := refine (max_passes cfg) (fst Dd)
                            (full_path (decode (keys (best out)))) in
      t1 <- now clock ;;
      ret (inr (assemble (fst Dd) (fst refined)
                         (method_tag (cancelled out) (snd Dd))
                         (quantum_iterations out) (whale_iterations out)
                         (t1 - t0) (snd Dd))).

(** A whole run, from the seed of the configuration. *)
Definition run (cfg : Config) (clock : nat -> Q) (locations : list Location)
    : Error + OptimizationResult :=
  fst (optimize cfg clock locations {| rng := seed_rng (seed cfg); reads := O |}).

End Pipeline.

(** The naive tour visits the interior waypoints in input order. *)
Definition naive_path (N : nat) : list nat := seq 0 N.

(** The result without its wall-clock field. *)
Definition erase_time (r : Error + OptimizationResult) : Error + OptimizationResult :=
  match r with
  | inl e => inl e
  | inr x =>
      inr {| order := order x;
             total_distance_km := total_distance_km x;
             total_duration_min := total_duration_min x;
             segments := segments x;
             method := method x;
             iterations_quantum := iterations_quantum x;
             iterations_whale := iterations_whale x;
             compute_time := 0;
             degraded := degraded x |}
  end.

End Core.

(** ** Concrete instances, for running the model *)

Module Examples.

Import Core.
Local Open Scope Q_scope.

(** A linear congruential generator as the explicit RNG. *)
Definition lcg_next (x : Z) : Z := ((1103515245 * x + 12345) mod 2147483648)%Z.

Definition lcg : Rng Z :=
  {| seed_rng := fun s => (s mod 2147483648)%Z;
     uniform := fun x => let x' := lcg_next x in (Qred (x' # 2147483648), x') |}.

(** Polynomial stand-ins for the transcendental functions. *)
Definition poly : Numerics :=
  {| exp_ := fun x => Qred (1 + x + x * x / 2 + x * x * x / 6);
     cos_ := fun x => Qred (1 - x * x / 2 + x * x * x * x / 24);
     sin_ := fun x => Qred (x - x * x * x / 6);
     pi_ := 355 # 113;
     great_circle_km := fun a b c d => 111 * (Qabs (a - c) + Qabs (b - d)) |}.

Definition table (rows : list (list Z)) : RawMatrix :=
  map (map (fun q => (Some (inject_Z q), Some (inject_Z q)))) rows.

(** Five locations, three interior waypoints.  The path 0,1,2,3,4 costs 4,
    the path 0,2,3,1,4 costs 7, and every path one 2-opt move away from
    the latter costs more than 7. *)
Definition trap : RawMatrix :=
  table [ [ 0;  1;  2; 10; 10];
          [10;  0;  1; 10;  2];
          [10; 10;  0;  1; 10];
          [10;  2; 10;  0;  1];
          [10; 10; 10; 10;  0] ]%Z.

Definition trap_provider : RoutingProvider := {| getMatrix := fun _ => Some trap |}.

Definition failing_provider : RoutingProvider := {| getMatrix := fun _ => None |}.

(** Population size and both iteration budgets are [k]; the initial
    amplitudes 3/5 and 4/5 have squares that sum to 1. *)
Definition config (s : Z) (k : nat) (limit : option Q) : Config :=
  {| population_size := k; T1 := k; T2 := k;
     cooling := 9 # 10; spiral_b := 1; seed := s; deadline := limit;
     patience := 5; max_passes := 50;
     theta0 := 1 # 10; temperature0 := 1; amplitude0 := (3 # 5, 4 # 5);
     penalty := 1000000; fallback_speed_kmh := 60 |}.

Definition place (i : nat) : Location :=
  {| id := i; latitude := inject_Z (Z.of_nat i); longitude := 0; label := "" |}.

Definition places (N : nat) : list Location := map place (seq 0 N).

(** Two clocks: one that advances by 1 per reading, one by 2. *)
Definition tick (k : nat) : Q := inject_Z (Z.of_nat k).
Definition tock (k : nat) : Q := inject_Z (Z.of_nat (2 * k)).

(** Points on a line: the distance is the difference of the indices. *)
Definition line : Matrix :=
  fun i j =>
    {| distance_km := Qabs (inject_Z (Z.of_nat i) - inject_Z (Z.of_nat j));
       duration_min := 0 |}.

(** The same distances as the table a provider returns for [N] places. *)
Definition line_table (N : nat) : RawMatrix :=
  map (fun i => map (fun j =>
         let d := Qabs (inject_Z (Z.of_nat i) - inject_Z (Z.of_nat j)) in
         (Some d, Some d)) (seq 0 N)) (seq 0 N).

Definition line_provider : RoutingProvider :=
  {| getMatrix := fun l => Some (line_table (List.length l)) |}.

(** [cfg] with the pass cap of the refiner set to [c]. *)
Definition capped (c : nat) (cfg : Config) : Config :=
  {| population_size := population_size cfg; T1 := T1 cfg; T2 := T2 cfg;
     cooling := cooling cfg; spiral_b := spiral_b cfg; seed := seed cfg;
     deadline := deadline cfg; patience := patience cfg; max_passes := c;
     theta0 := theta0 cfg; temperature0 := temperature0 cfg;
     amplitude0 := amplitude0 cfg; penalty := penalty cfg;
     fallback_speed_kmh := fallback_speed_kmh cfg |}.

(** A path on the line with [k] neighbouring pairs swapped. *)
Definition zigzag (k : nat) : list nat :=
  (0 :: flat_map (fun i => [2 * i + 2; 2 * i + 1]) (seq 0 k) ++ [2 * k + 1])%nat.

(** Places on a line that the caller lists in zigzag order: location [i]
    lies at the point [zig_pos k i], and the table holds the distances
    along the line. *)
Definition zig_pos (k i : nat) : Z := Z.of_nat (nth i (zigzag k) 0%nat).

Definition zig_table (k : nat) : RawMatrix :=
  map (fun i => map (fun j =>
         let d := Qabs (inject_Z (zig_pos k i) - inject_Z (zig_pos k j)) in
         (Some d, Some d)) (seq 0 (2 * k + 2))) (seq 0 (2 * k + 2)).

Definition zig_provider (k : nat) : RoutingProvider :=
  {| getMatrix := fun _ => Some (zig_table k) |}.

End Examples.

(** ** The remaining handlers of the front end *)

(** Array methods that the remaining handlers call. *)
Module JsArray.

(** [a.filter((x, i) => f(x, i))], with [k] the index of the head. *)
Fixpoint filterFrom {A : Type} (f : A -> nat -> bool) (k : nat) (a : list A) : list A :=
  match a with
  | [] => []
  | x :: a' => if f x k then x :: filterFrom f (S k) a' else filterFrom f (S k) a'
  end.

Definition filterIndexed {A : Type} (f : A -> nat -> bool) (a : list A) : list A :=
  filterFrom f 0 a.

(** [a.findIndex(f)]; [None] stands for the result -1. *)
Fixpoint findIndexFrom {A : Type} (f : A -> bool) (k : nat) (a : list A) : option nat :=
  match a with
  | [] => None
  | x :: a' => if f x then Some k else findIndexFrom f (S k) a'
  end.

Definition findIndex {A : Type} (f : A -> bool) (a : list A) : option nat :=
  findIndexFrom f 0 a.

(** [a.indexOf(x)] on an array of integers. *)
Definition indexOf (x : Z) (a : list Z) : Z :=
  match findIndex (Z.eqb x) a with
  | Some k => Z.of_nat k
  | None => (-1)%Z
  end.

(** [a[i]] for an integer [i]; [None] is [undefined]. *)
Definition at_ {A : Type} (a : list A) (i : Z) : option A :=
  if (i <? 0)%Z then None else nth_error a (Z.to_nat i).

(** The array without its entry at index [i]. *)
Definition without {A : Type} (i : nat) (a : list A) : list A :=
  firstn i a ++ skipn (S i) a.

End JsArray.

(** App.js: the handlers beside [handleAddWaypoint] and [handleOptimize]. *)
Module AppHandlers.

Import App.

Section WithRoute.

Variable Route : Type.

Definition setBackendStatus (b : string) (st : AppState Route) : AppState Route :=
  {| waypoints := waypoints st; optimizedRoute := optimizedRoute st;
     isOptimizing := isOptimizing st; backendStatus := b;
     isDarkTheme := isDarkTheme st; error := error st |}.

Definition setIsDarkTheme (b : bool) (st : AppState Route) : AppState Route :=
  {| waypoints := waypoints st; optimizedRoute := optimizedRoute st;
     isOptimizing := isOptimizing st; backendStatus := backendStatus st;
     isDarkTheme := b; error := error st |}.

(** The state of [useState] at mount. *)
Definition initial : AppState Route :=
  {| waypoints := []; optimizedRoute := None; isOptimizing := false;
     backendStatus := "checking"; isDarkTheme := true; error := None |}.

Definition handleRemoveWaypoint (index : nat) (st : AppState Route) : AppState Route :=
  let newWaypoints :=
    JsArray.filterIndexed (fun _ i => negb (i =? index)) (waypoints st) in
  let st1 := setWaypoints newWaypoints st in
  if List.length newWaypoints =? 0 then setOptimizedRoute None st1 else st1.

Definition handleClearWaypoints (st : AppState Route) : AppState Route :=
  setError None (setOptimizedRoute None (setWaypoints [] st)).

(** [handleOptimize] around its [await]: what runs before the request is
    in flight, once the start and the destination are found, and what runs
    when the request settles with [o]. *)
Definition optimizeBegin (st : AppState Route) : AppState Route :=
  setError None (setIsOptimizing true st).

Definition optimizeEnd (o : Outcome Route) (st : AppState Route) : AppState Route :=
  setIsOptimizing false
    match o with
    | Resolved (Some body) =>
        if success body then setOptimizedRoute (data body) st
        else setError (Some (Js.orDefault (r_error body) "Optimization failed")) st
    | Resolved None =>
        setError (Some (Js.orDefault None "Failed to connect to backend")) st
    | Thrown e =>
        setError (Some (Js.orDefault e "Failed to connect to backend")) st
    end.

End WithRoute.

Arguments setBackendStatus {Route}.
Arguments setIsDarkTheme {Route}.
Arguments initial {Route}.
Arguments handleRemoveWaypoint {Route}.
Arguments handleClearWaypoints {Route}.
Arguments optimizeBegin {Route}.
Arguments optimizeEnd {Route}.

End AppHandlers.

(** services/api.js: the request body that [optimizeRoute] posts. *)
Module Api.

Import App.

Definition endpoint : string := "/optimize-route".

Definition body (waypoints : list Payload) : list Payload :=
  map (fun wp => {| p_lat := p_lat wp; p_lng := p_lng wp;
                    p_name := p_name wp; p_address := p_address wp |})
      waypoints.

End Api.

(** WaypointManager.js: its local state, [removeByType], what it renders,
    and the events a user can fire on the rendered page. *)
Module WaypointManager.

Import App AppHandlers.

Record Local := {
  showStartSearch : bool;
  showDestSearch : bool;
  showWaypointSearch : bool
}.

Definition setShowStartSearch (b : bool) (l : Local) : Local :=
  {| showStartSearch := b; showDestSearch := showDestSearch l;
     showWaypointSearch := showWaypointSearch l |}.

Definition setShowDestSearch (b : bool) (l : Local) : Local :=
  {| showStartSearch := showStartSearch l; showDestSearch := b;
     showWaypointSearch := showWaypointSearch l |}.

Definition setShowWaypointSearch (b : bool) (l : Local) : Local :=
  {| showStartSearch := showStartSearch l; showDestSearch := showDestSearch l;
     showWaypointSearch := b |}.

Section WithRoute.

Variable Route : Type.

(** [removeByType(type, index = null)].  The test [w === targetWaypoint]
    compares object identities; every entry of [waypoints] is an object of
    its own, made by the handler that added it, so an entry is identified
    by its position, with which the model pairs it. *)
Definition removeByType (t : string) (index : option nat) (st : AppState Route)
    : AppState Route :=
  match String.eqb t "waypoint", index with
  | true, Some idx =>
      let refs := combine (seq 0 (List.length (waypoints st))) (waypoints st) in
      let waypointItems := filter (fun rw => isType "waypoint" (snd rw)) refs in
      match nth_error waypointItems idx with
      | Some targetWaypoint =>
          match JsArray.findIndex (fun rw => fst rw =? fst targetWaypoint) refs with
          | Some actualIndex => handleRemoveWaypoint actualIndex st
          | None => st
          end
      | None => st
      end
  | _, _ =>
      match JsArray.findIndex (isType t) (waypoints st) with
      | Some actualIndex => handleRemoveWaypoint actualIndex st
      | None => st
      end
  end.

(** [{startPoint && destination && (...)}]: the banner and the optimize
    button. *)
Definition optimizeButtonShown (st : AppState Route) : bool :=
  match startPoint st, destination st with
  | Some _, Some _ => true
  | _, _ => false
  end.

(** [{(!startPoint || !destination) && (...)}]: the warning banner. *)
Definition warningShown (st : AppState Route) : bool :=
  negb (optimizeButtonShown st).

(** The page: the state of App, the local state of WaypointManager, and
    the number of optimize requests that have not settled yet. *)
Record Ui := {
  app : AppState Route;
  wm : Local;
  pending : nat
}.

Definition startup : Ui :=
  {| app := initial;
     wm := {| showStartSearch := false; showDestSearch := false;
              showWaypointSearch := false |};
     pending := 0 |}.

(** One event.  Each constructor carries the condition under which the
    control that fires it is rendered (and enabled). *)
Inductive step : Ui -> Ui -> Prop :=
| toggle_start u :
    startPoint (app u) = None ->
    step u {| app := app u;
              wm := setShowStartSearch (negb (showStartSearch (wm u))) (wm u);
              pending := pending u |}
| select_start u location :
    showStartSearch (wm u) = true ->
    step u {| app := handleStartSelect location (app u);
              wm := setShowStartSearch false (wm u);
              pending := pending u |}
| remove_start u :
    startPoint (app u) <> None ->
    step u {| app := removeByType "start" None (app u);
              wm := wm u; pending := pending u |}
| toggle_dest u :
    destination (app u) = None ->
    step u {| app := app u;
              wm := setShowDestSearch (negb (showDestSearch (wm u))) (wm u);
              pending := pending u |}
| select_dest u location :
    showDestSearch (wm u) = true ->
    step u {| app := handleDestSelect location (app u);
              wm := setShowDestSearch false (wm u);
              pending := pending u |}
| remove_dest u :
    destination (app u) <> None ->
    step u {| app := removeByType "destination" None (app u);
              wm := wm u; pending := pending u |}
| toggle_waypoint u :
    step u {| app := app u;
              wm := setShowWaypointSearch (negb (showWaypointSearch (wm u))) (wm u);
              pending := pending u |}
| select_waypoint u location :
    showWaypointSearch (wm u) = true ->
    step u {| app := handleWaypointSelect location (app u);
              wm := setShowWaypointSearch false (wm u);
              pending := pending u |}
| remove_waypoint u idx :
    idx < List.length (filter (isType "waypoint") (waypoints (app u))) ->
    step u {| app := removeByType "waypoint" (Some idx) (app u);
              wm := wm u; pending := pending u |}
| clear_all u :
    waypoints (app u) <> [] ->
    step u {| app := handleClearWaypoints (app u); wm := wm u;
              pending := pending u |}
| map_click u w :
    (* MapView in click mode, through [handleMapClick] of App.js: the new
       entry has the type 'waypoint' *)
    type w = "waypoint" ->
    step u {| app := handleAddWaypoint w (app u); wm := wm u;
              pending := pending u |}
| optimize_click u :
    optimizeButtonShown (app u) = true ->
    isOptimizing (app u) = false ->
    step u {| app := optimizeBegin (app u); wm := wm u;
              pending := S (pending u) |}
| optimize_settles u o :
    0 < pending u ->
    step u {| app := optimizeEnd o (app u); wm := wm u;
              pending := pending u - 1 |}
| theme_toggle u :
    step u {| app := setIsDarkTheme (negb (isDarkTheme (app u))) (app u);
              wm := wm u; pending := pending u |}
| health_settles u b :
    step u {| app := setBackendStatus b (app u); wm := wm u;
              pending := pending u |}.

Inductive reachable : Ui -> Prop :=
| reach_startup : reachable startup
| reach_step u u' : reachable u -> step u u' -> reachable u'.

(** What every reachable page satisfies. *)
Definition page_ok (u : Ui) : Prop :=
  let ws := waypoints (app u) in
  Forall (fun w => type w = "start" \/ type w = "destination"
                   \/ type w = "waypoint") ws /\
  List.length (filter (isType "start") ws) <= 1 /\
  List.length (filter (isType "destination") ws) <= 1 /\
  (showStartSearch (wm u) = true -> filter (isType "start") ws = []) /\
  (showDestSearch (wm u) = true -> filter (isType "destination") ws = []) /\
  pending u = (if isOptimizing (app u) then 1 else 0).

End WithRoute.

Arguments removeByType {Route}.
Arguments optimizeButtonShown {Route}.
Arguments warningShown {Route}.
Arguments app {Route}.
Arguments wm {Route}.
Arguments pending {Route}.
Arguments startup {Route}.
Arguments step {Route}.
Arguments reachable {Route}.
Arguments page_ok {Route}.

End WaypointManager.

(** SearchBar.js: the handlers around the search effect, and the events on
    the component. *)
Module SearchBarUi.

Import SearchBar.

Definition mounted : SearchState :=
  {| searchTerm := ""; filteredCities := []; showResults := false |}.

Definition setShowResults (b : bool) (st : SearchState) : SearchState :=
  {| searchTerm := searchTerm st; filteredCities := filteredCities st;
     showResults := b |}.

Definition setSearchTerm (v : string) (st : SearchState) : SearchState :=
  {| searchTerm := v; filteredCities := filteredCities st;
     showResults := showResults st |}.

(** The effect has [searchTerm] as its only dependency: it runs after a
    handler when the term has changed, and overwrites the other two
    parts of the state. *)
Definition runEffect (before after : SearchState) : SearchState :=
  if String.eqb (searchTerm before) (searchTerm after) then after
  else searchEffect (searchTerm after).

Definition onChange (v : string) (st : SearchState) : SearchState :=
  runEffect st (setSearchTerm v st).

Definition handleSearchFocus (st : SearchState) : SearchState :=
  if 2 <=? String.length (Js.trim (searchTerm st)) then setShowResults true st
  else st.

(** [handleClickOutside] for a click that lands outside the component. *)
Definition handleClickOutside (st : SearchState) : SearchState :=
  setShowResults false st.

(** The state part of [handleCitySelect], which is also what the clear
    button does. *)
Definition resetSearch (st : SearchState) : SearchState :=
  runEffect st (setShowResults false (setSearchTerm "" st)).

Inductive step : SearchState -> SearchState -> Prop :=
| type_text st v : step st (onChange v st)
| focus st : step st (handleSearchFocus st)
| click_outside st : step st (handleClickOutside st)
| pick_city st city :
    In city (shownResults st) -> step st (resetSearch st)
| clear st :
    searchTerm st <> "" -> step st (resetSearch st).

Inductive reachable : SearchState -> Prop :=
| reach_mounted : reachable mounted
| reach_step st st' : reachable st -> step st st' -> reachable st'.

(** What every reachable state of the component satisfies: the stored
    rows are those of the effect on the stored text, and the list is open
    only for a text of trimmed length 2 or more. *)
Definition search_ok (st : SearchState) : Prop :=
  filteredCities st = filteredCities (searchEffect (searchTerm st)) /\
  (showResults st = true -> 2 <= String.length (Js.trim (searchTerm st))).

End SearchBarUi.

(** MapView.js: the selection of routes, the polyline and the markers. *)
Module MapView.

Import App.

(** The keys of [selectedRoutes]: the index of an alternative route, or the
    string 'best'. *)
Inductive RouteKey := Alt (index : nat) | Best.

Definition key_eqb (a b : RouteKey) : bool :=
  match a, b with
  | Alt i, Alt j => i =? j
  | Best, Best => true
  | _, _ => false
  end.

(** A [Set] of keys as the list of its members in insertion order. *)
Definition KeySet := list RouteKey.

Definition has (k : RouteKey) (s : KeySet) : bool := existsb (key_eqb k) s.

Definition add (k : RouteKey) (s : KeySet) : KeySet :=
  if has k s then s else s ++ [k].

Definition delete (k : RouteKey) (s : KeySet) : KeySet :=
  filter (fun x => negb (key_eqb k x)) s.

Definition size (s : KeySet) : nat := List.length s.

Definition toggleRouteVisibility (routeIndex : RouteKey) (prev : KeySet) : KeySet :=
  if has routeIndex prev then delete routeIndex prev else add routeIndex prev.

Definition shouldShowRoute (selectedRoutes : KeySet) (routeIndex : RouteKey) : bool :=
  if size selectedRoutes =? 0 then true else has routeIndex selectedRoutes.

(** The sets that [toggleRouteVisibility] can build from the empty one. *)
Inductive built : KeySet -> Prop :=
| built_empty : built []
| built_toggle s k : built s -> built (toggleRouteVisibility k s).

Definition LatLng := (Q * Q)%type.

(** The parts of [optimizedRoute] that the polyline and the markers
    read; [None] is a missing field. *)
Record RouteData := {
  route_geometry : option (list LatLng);
  optimized_order : option (list Z)
}.

(** [getRoutePolyline]; the result [None] is the TypeError of
    [waypoints[idx].lat] on an index that [waypoints] does not have. *)
Definition getRoutePolyline (optimizedRoute : option RouteData)
    (waypoints : list Waypoint) : option (list LatLng) :=
  match optimizedRoute with
  | None => Some []
  | Some r =>
      match route_geometry r with
      | Some (p :: g) => Some (p :: g)
      | _ =>
          match optimized_order r with
          | Some order =>
              fold_right
                (fun idx rest =>
                   match JsArray.at_ waypoints idx, rest with
                   | Some w, Some ps => Some ((lat w, lng w) :: ps)
                   | _, _ => None
                   end)
                (Some []) order
          | None => Some []
          end
      end
  end.

Inductive Icon := startIcon | endIcon | waypointIcon.

Definition getMarkerIcon (index : Z) (total : nat) : Icon :=
  if (index =? 0)%Z then startIcon
  else if (index =? Z.of_nat total - 1)%Z then endIcon
  else waypointIcon.

(** The icon of the marker of [waypoints[index]]. *)
Definition markerIcon (optimizedRoute : option RouteData) (total index : nat) : Icon :=
  let orderIndex :=
    match optimizedRoute with
    | Some r =>
        match optimized_order r with
        | Some order => JsArray.indexOf (Z.of_nat index) order
        | None => Z.of_nat index
        end
    | None => Z.of_nat index
    end in
  getMarkerIcon orderIndex total.

End MapView.

(** ** Concrete pages, for the front end *)

Module Pages.

Import App AppHandlers WaypointManager.

Definition pune : SearchBar.Location :=
  SearchBar.handleCitySelect (SearchBar.mk "Pune" "Maharashtra" (185204 # 10000) (738567 # 10000)).

Definition salem : SearchBar.Location :=
  SearchBar.handleCitySelect (SearchBar.mk "Salem" "Tamil Nadu" (116643 # 10000) (781460 # 10000)).

Definition kochi : SearchBar.Location :=
  SearchBar.handleCitySelect (SearchBar.mk "Kochi" "Kerala" (99312 # 10000) (762673 # 10000)).

(** The page after: open the start search, pick Pune, open the
    destination search, pick Salem, open the waypoint search, pick Kochi,
    click the optimize button. *)
Definition page0 : Ui unit := startup.

Definition page1 : Ui unit :=
  {| app := app page0;
     wm := setShowStartSearch (negb (showStartSearch (wm page0))) (wm page0);
     pending := pending page0 |}.

Definition page2 : Ui unit :=
  {| app := handleStartSelect pune (app page1);
     wm := setShowStartSearch false (wm page1);
     pending := pending page1 |}.

Definition page3 : Ui unit :=
  {| app := app page2;
     wm := setShowDestSearch (negb (showDestSearch (wm page2))) (wm page2);
     pending := pending page2 |}.

Definition page4 : Ui unit :=
  {| app := handleDestSelect salem (app page3);
     wm := setShowDestSearch false (wm page3);
     pending := pending page3 |}.

Definition page5 : Ui unit :=
  {| app := app page4;
     wm := setShowWaypointSearch (negb (showWaypointSearch (wm page4))) (wm page4);
     pending := pending page4 |}.

Definition page6 : Ui unit :=
  {| app := handleWaypointSelect kochi (app page5);
     wm := setShowWaypointSearch false (wm page5);
     pending := pending page5 |}.

Definition page7 : Ui unit :=
  {| app := optimizeBegin (app page6); wm := wm page6;
     pending := S (pending page6) |}.

(** A back end that answers every request with the same body. *)
Definition answers {Route : Type} (r : Route) (_ : list Payload) : Outcome Route :=
  Resolved (Some {| success := true; data := Some r; r_error := None |}).

(** A route without geometry whose order is 0, 2, 1. *)
Definition plain_route : MapView.RouteData :=
  {| MapView.route_geometry := None;
     MapView.optimized_order := Some [0; 2; 1]%Z |}.

(** Pune as start, Salem as destination, then Kochi as waypoint, with
    [plain_route] on display. *)
Definition shown_page : AppState MapView.RouteData :=
  setOptimizedRoute (Some plain_route)
    (handleWaypointSelect kochi
       (handleDestSelect salem (handleStartSelect pune initial))).

(** The same three places added as start, waypoint, destination. *)
Definition ordered_page : AppState unit :=
  handleDestSelect salem
    (handleWaypointSelect kochi (handleStartSelect pune initial)).

End Pages.

(** * Properties of the front end *)

Section SearchBarFacts.

Import SearchBar.

Lemma startsWith_spec (t s : string) :
  Js.startsWith t s = true <-> exists b, s = (t ++ b)%string.
Proof.
  revert s; induction t as [|a t IH]; intros s; simpl.
  - split; [intros _; exists s; reflexivity | reflexivity].
  - destruct s as [|c s].
    + split; [discriminate | intros [b Hb]; discriminate].
    + rewrite andb_true_iff, Ascii.eqb_eq, IH. split.
      * intros [-> [b ->]]. exists b. reflexivity.
      * intros [b Hb]. injection Hb as -> ->. split; [reflexivity | exists b; reflexivity].
Qed.

Lemma includes_spec (s t : string) :
  Js.includes s t = true <-> Js.contains s t.
Proof.
  unfold Js.contains. induction s as [|c s IH].
  - simpl. rewrite orb_false_r, startsWith_spec. split.
    + intros [b Hb]. exists EmptyString, b. exact Hb.
    + intros [a [b Hb]]. destruct a; simpl in Hb; [exists b; exact Hb | discriminate].
  - change (Js.includes (String c s) t)
      with (Js.startsWith t (String c s) || Js.includes s t).
    rewrite orb_true_iff, startsWith_spec, IH. split.
    + intros [[b Hb] | [a [b Hb]]].
      * exists EmptyString, b. exact Hb.
      * exists (String c a), b. simpl. now rewrite Hb.
    + intros [a [b Hb]]. destruct a as [|c' a]; simpl in Hb.
      * left. exists b. exact Hb.
      * right. injection Hb as _ Hb. exists a, b. exact Hb.
Qed.

Lemma In_firstn_filter {A : Type} (f : A -> bool) (n : nat) (l : list A) (x : A) :
  In x (firstn n (filter f l)) -> In x l /\ f x = true.
Proof.
  intros H. apply filter_In. revert H. generalize (filter f l) as m.
  induction n as [|n IH]; intros [|y m]; simpl; try tauto.
  intros [-> | H]; [now left | right; now apply IH].
Qed.

Lemma cityMatches_spec (term : string) (c : City) :
  cityMatches term c = true <-> matchesTerm term c.
Proof.
  unfold cityMatches, matchesTerm.
  now rewrite orb_true_iff, !includes_spec.
Qed.

Lemma shown_is_filtered (term : string) :
  shownResults (searchEffect term) = filteredCities (searchEffect term).
Proof.
  unfold shownResults, searchEffect.
  generalize (filter (cityMatches term) INDIAN_CITIES) as m. intros m.
  destruct (2 <=? String.length (Js.trim term));
    cbn [showResults filteredCities andb]; [|reflexivity].
  destruct (Js.slice0 8 m); reflexivity.
Qed.

(** C10: a term whose trimmed length is below 2 shows no city; otherwise
    the shown cities are the first 8, in table order, of the cities whose
    lower-cased name or state contains the lower-cased term. *)
Theorem search_results_shown (term : string) :
  (String.length (Js.trim term) < 2 ->
     shownResults (searchEffect term) = []) /\
  (2 <= String.length (Js.trim term) ->
     shownResults (searchEffect term)
       = firstn 8 (filter (cityMatches term) INDIAN_CITIES)) /\
  (forall c, cityMatches term c = true <-> matchesTerm term c) /\
  List.length (shownResults (searchEffect term)) <= 8 /\
  (forall c, In c (shownResults (searchEffect term)) ->
     In c INDIAN_CITIES /\ matchesTerm term c).
Proof.
  rewrite shown_is_filtered. unfold searchEffect, Js.slice0.
  pose proof (In_firstn_filter (cityMatches term) 8 INDIAN_CITIES) as Hin.
  revert Hin. generalize (filter (cityMatches term) INDIAN_CITIES) as m.
  intros m Hin.
  destruct (Nat.leb_spec 2 (String.length (Js.trim term))) as [Hge | Hlt];
    cbn [filteredCities].
  - split; [lia|]. split; [reflexivity|].
    split; [apply cityMatches_spec|].
    split; [apply firstn_le_length|].
    intros c Hc. destruct (Hin c Hc) as [H1 H2].
    split; [exact H1 | now apply cityMatches_spec].
  - split; [reflexivity|]. split; [lia|].
    split; [apply cityMatches_spec|].
    split; [simpl; lia | intros c []].
Qed.

End SearchBarFacts.

(** * Properties of App.js and WaypointManager.js *)

Section AppFacts.

Import App.

Variable Route : Type.

Lemma find_app_first {A : Type} (f : A -> bool) (l l' : list A) (x : A) :
  find f l = Some x -> find f (l ++ l') = Some x.
Proof.
  induction l as [|y l IH]; simpl; [discriminate|].
  destruct (f y); [trivial | exact IH].
Qed.

Lemma orDefault_nonempty (x : option string) (d : string) :
  d <> EmptyString -> Js.orDefault x d <> EmptyString.
Proof.
  intros Hd. destruct x as [[|c s]|]; simpl; try assumption. discriminate.
Qed.

(** C6, as the handler has it: the handler refuses to send exactly when
    the list holds no start-typed entry or no destination-typed entry; it
    then sets the invalid-input message.  A list of fewer than 2 locations
    is always refused, and so is a longer list that lacks one of the two
    end points.  With both present the request is sent with at least 2
    locations, whatever the number of intermediate waypoints, and the
    error stays null unless the back end fails. *)
Theorem handleOptimize_rejects_iff (optimizeRoute : list Payload -> Outcome Route)
    (st : AppState Route) :
  let r := handleOptimize optimizeRoute st in
  (sent r = None <->
     startPoint st = None \/ destination st = None) /\
  (sent r = None <-> List.length (endpoints st) < 2) /\
  (List.length (waypoints st) < 2 -> sent r = None) /\
  (sent r = None ->
     error (final r)
       = Some "Please add both start point and destination") /\
  (forall s d, startPoint st = Some s -> destination st = Some d ->
     let payload :=
       map toPayload ([s] ++ filter (isType "waypoint") (waypoints st) ++ [d]) in
     sent r = Some payload /\
     2 <= List.length payload /\
     (error (final r) = None <->
        exists body, optimizeRoute payload = Resolved (Some body)
                     /\ success body = true)).
Proof.
  unfold startPoint, destination, endpoints, handleOptimize.
  destruct st as [ws route busy status dark err]; cbn [waypoints].
  destruct (find (isType "start") ws) as [s|] eqn:Hs;
    destruct (find (isType "destination") ws) as [d|] eqn:Hd;
    cbn [sent final error setError List.length app].
  - split; [split; [discriminate | intros [H|H]; discriminate]|].
    split; [split; [discriminate | lia]|].
    split.
    { intros Hlen. destruct ws as [|w [|w' ws]]; simpl in Hlen; try lia.
      - discriminate.
      - simpl in Hs, Hd. unfold isType in Hs, Hd.
        destruct (String.eqb_spec (type w) "start") as [E|E]; [|discriminate].
        rewrite E in Hd. simpl in Hd. discriminate. }
    split; [discriminate|].
    intros s' d' [= <-] [= <-]. split; [reflexivity|].
    split; [rewrite length_map; simpl; rewrite length_app; simpl; lia|].
    change ([s] ++ filter (isType "waypoint") ws ++ [d])
      with (s :: filter (isType "waypoint") ws ++ [d]).
    destruct (optimizeRoute _) as [[body|]|e]; [destruct (success body) eqn:Hok|..];
      cbn; split; try discriminate.
    + intros _. now exists body.
    + reflexivity.
    + intros [b [[= <-] Hb]]. congruence.
    + intros [b [Hb _]]. discriminate.
    + intros [b [Hb _]]. discriminate.
  - repeat split; auto; try (intros; lia); try discriminate.
  - repeat split; auto; try (intros; lia); try discriminate.
  - repeat split; auto; try (intros; lia); try discriminate.
Qed.

Lemma find_some_type (t : string) (ws : list Waypoint) (w : Waypoint) :
  find (isType t) ws = Some w -> In w ws /\ type w = t.
Proof.
  intros H. apply find_some in H. destruct H as [Hin Ht].
  split; [exact Hin | now apply String.eqb_eq].
Qed.

Lemma find_exists_type (t : string) (ws : list Waypoint) :
  (exists w, In w ws /\ type w = t) -> exists w0, find (isType t) ws = Some w0.
Proof.
  intros [w [Hin Ht]].
  destruct (find (isType t) ws) as [w0|] eqn:Hf; [now exists w0|].
  apply (find_none _ _ Hf) in Hin. unfold isType in Hin.
  rewrite Ht, String.eqb_refl in Hin. discriminate.
Qed.

(** C7: when the waypoints hold a start-typed and a destination-typed
    point, the list sent to the back end is the first start-typed point,
    then the waypoint-typed points in their order of insertion, then the
    first destination-typed point, each reduced to lat, lng, name and
    address. *)
Theorem handleOptimize_sends_ordered (optimizeRoute : list Payload -> Outcome Route)
    (st : AppState Route) :
  (exists w, In w (waypoints st) /\ type w = "start") ->
  (exists w, In w (waypoints st) /\ type w = "destination") ->
  exists s d,
    startPoint st = Some s /\ type s = "start" /\
    destination st = Some d /\ type d = "destination" /\
    sent (handleOptimize optimizeRoute st)
      = Some (toPayload s
              :: map toPayload (filter (isType "waypoint") (waypoints st))
              ++ [toPayload d]) /\
    (forall w, In w (filter (isType "waypoint") (waypoints st))
               <-> In w (waypoints st) /\ type w = "waypoint").
Proof.
  intros Hs Hd.
  apply find_exists_type in Hs. apply find_exists_type in Hd.
  destruct Hs as [s Hs], Hd as [d Hd]. exists s, d.
  unfold startPoint, destination, handleOptimize. rewrite Hs, Hd.
  cbn [sent].
  split; [reflexivity|]. split; [apply (find_some_type _ _ _ Hs)|].
  split; [reflexivity|]. split; [apply (find_some_type _ _ _ Hd)|].
  split.
  - f_equal. simpl. now rewrite map_app.
  - intros w. rewrite filter_In. unfold isType.
    now rewrite String.eqb_eq.
Qed.

(** C8: when the response does not report success, or the request throws,
    the stored route is the one from before and the error is a non-empty
    message; the stored route changes only to the data of a response that
    reports success. *)
Theorem handleOptimize_keeps_route_on_failure
    (optimizeRoute : list Payload -> Outcome Route) (st : AppState Route) :
  let r := handleOptimize optimizeRoute st in
  (forall payload, sent r = Some payload ->
     failed (optimizeRoute payload) ->
     optimizedRoute (final r) = optimizedRoute st /\
     exists msg, error (final r) = Some msg /\ msg <> EmptyString) /\
  (sent r = None ->
     optimizedRoute (final r) = optimizedRoute st /\
     error (final r) <> None) /\
  (optimizedRoute (final r) <> optimizedRoute st ->
     exists payload body,
       sent r = Some payload /\
       optimizeRoute payload = Resolved (Some body) /\
       success body = true /\
       optimizedRoute (final r) = data body).
Proof.
  unfold handleOptimize.
  destruct st as [ws route busy status dark err]; cbn [waypoints].
  destruct (find (isType "start") ws) as [s|];
    [destruct (find (isType "destination") ws) as [d|]|];
    cbn [sent final];
    try (split; [discriminate|]; split; [intros _; split; [reflexivity|discriminate]|];
         intros H; exfalso; apply H; reflexivity).
  generalize (map toPayload ([s] ++ filter (isType "waypoint") ws ++ [d])).
  intros payload.
  destruct (optimizeRoute payload) as [[body|]|e] eqn:Ho;
    [destruct (success body) eqn:Hok|..]; cbn.
  - split; [|split; [discriminate|]].
    + intros p [= <-]. rewrite Ho. cbn. congruence.
    + intros _. exists payload, body. auto.
  - split; [|split; [discriminate|]].
    + intros p [= <-] _. split; [reflexivity|].
      eexists; split; [reflexivity|]. apply orDefault_nonempty. discriminate.
    + intros H; exfalso; apply H; reflexivity.
  - split; [|split; [discriminate|]].
    + intros p [= <-] _. split; [reflexivity|].
      eexists; split; [reflexivity|]. discriminate.
    + intros H; exfalso; apply H; reflexivity.
  - split; [|split; [discriminate|]].
    + intros p [= <-] _. split; [reflexivity|].
      eexists; split; [reflexivity|]. apply orDefault_nonempty. discriminate.
    + intros H; exfalso; apply H; reflexivity.
Qed.

(** C9: with a start already in the list, [handleStartSelect] appends one
    more start-typed entry and removes nothing; the start that is
    displayed, and that [handleOptimize] sends first, is still the earlier
    one.  Likewise for [handleDestSelect] and the destination, which is
    sent last. *)
Theorem second_endpoint_keeps_first (location : SearchBar.Location)
    (st : AppState Route) :
  (forall s, startPoint st = Some s ->
     let st' := handleStartSelect location st in
     waypoints st' = waypoints st ++ [withType location "start"] /\
     List.length (filter (isType "start") (waypoints st'))
       = S (List.length (filter (isType "start") (waypoints st))) /\
     startPoint st' = Some s /\
     (forall optimizeRoute payload,
        sent (handleOptimize optimizeRoute st') = Some payload ->
        hd_error payload = Some (toPayload s))) /\
  (forall d, destination st = Some d ->
     let st' := handleDestSelect location st in
     waypoints st' = waypoints st ++ [withType location "destination"] /\
     List.length (filter (isType "destination") (waypoints st'))
       = S (List.length (filter (isType "destination") (waypoints st))) /\
     destination st' = Some d /\
     (forall optimizeRoute payload,
        sent (handleOptimize optimizeRoute st') = Some payload ->
        last payload (toPayload d) = toPayload d
        /\ exists front, payload = front ++ [toPayload d])).
Proof.
  unfold startPoint, destination, handleStartSelect, handleDestSelect,
    handleAddWaypoint.
  destruct st as [ws route busy status dark err]; cbn [waypoints setWaypoints setError].
  split.
  - intros s Hs. split; [reflexivity|].
    split; [rewrite filter_app, length_app; simpl; lia|].
    pose proof (find_app_first _ _ [withType location "start"] _ Hs) as Hs'.
    split; [exact Hs'|].
    intros f payload. unfold handleOptimize.
    cbn [waypoints setWaypoints setError optimizedRoute isOptimizing
         backendStatus isDarkTheme error]. rewrite Hs'.
    destruct (find (isType "destination") _); cbn [sent]; [|discriminate].
    intros [= <-]. reflexivity.
  - intros d Hd. split; [reflexivity|].
    split; [rewrite filter_app, length_app; simpl; lia|].
    pose proof (find_app_first _ _ [withType location "destination"] _ Hd) as Hd'.
    split; [exact Hd'|].
    intros f payload. unfold handleOptimize.
    cbn [waypoints setWaypoints setError optimizedRoute isOptimizing
         backendStatus isDarkTheme error]. rewrite Hd'.
    destruct (find (isType "start") _) as [s|]; cbn [sent]; [|discriminate].
    intros [= <-]. rewrite map_app. cbn [map].
    rewrite app_comm_cons. split.
    + apply last_last.
    + eexists. reflexivity.
Qed.

End AppFacts.

(** A start, two intermediate waypoints around a destination, and a back
    end that is down. *)
Lemma handleOptimize_sends_ordered_witness :
  let w := fun n t => {| App.lat := 0; App.lng := 0; App.name := n;
                         App.address := None; App.type := t |} in
  let st := {| App.waypoints := [w "B" "waypoint"; w "A" "start";
                                 w "Z" "destination"; w "C" "waypoint"];
               App.optimizedRoute := @None unit;
               App.isOptimizing := false; App.backendStatus := "connected";
               App.isDarkTheme := true; App.error := None |} in
  App.sent (App.handleOptimize (fun _ => App.Thrown None) st)
  = Some (map App.toPayload [w "A" "start"; w "B" "waypoint"; w "C" "waypoint";
                             w "Z" "destination"]).
Proof.
  intros w st.
  assert (Hs : exists x, In x (App.waypoints st) /\ App.type x = "start").
  { exists (w "A" "start"). split; [simpl; tauto | reflexivity]. }
  assert (Hd : exists x, In x (App.waypoints st) /\ App.type x = "destination").
  { exists (w "Z" "destination"). split; [simpl; tauto | reflexivity]. }
  destruct (handleOptimize_sends_ordered unit (fun _ => App.Thrown None) st Hs Hd)
    as [s [d [Hfs [_ [Hfd [_ [Hsent _]]]]]]].
  rewrite Hsent. injection Hfs as <-. injection Hfd as <-. reflexivity.
Defined.

(** C6 fails as stated: three locations are supplied, none of them
    start-typed; the request is refused with the invalid-input message
    although the list does not hold fewer than 2 locations. *)
Lemma handleOptimize_rejects_three_locations :
  let w := fun n t => {| App.lat := 0; App.lng := 0; App.name := n;
                         App.address := None; App.type := t |} in
  let st := {| App.waypoints := [w "B" "waypoint"; w "C" "waypoint";
                                 w "Z" "destination"];
               App.optimizedRoute := @None unit;
               App.isOptimizing := false; App.backendStatus := "connected";
               App.isDarkTheme := true; App.error := None |} in
  let r := App.handleOptimize (fun _ => App.Thrown None) st in
  List.length (App.waypoints st) = 3
  /\ App.sent r = None
  /\ App.error (App.final r) = Some "Please add both start point and destination"
  /\ ~ (App.sent r = None <-> List.length (App.waypoints st) < 2).
Proof.
  cbv zeta. split; [reflexivity|]. split; [reflexivity|]. split; [reflexivity|].
  intros [H _]. specialize (H eq_refl). simpl in H. lia.
Qed.

(** Two waypoint-typed entries and a destination, no start: nothing is
    sent, and the stored route stays. *)
Example reject_without_start :
  let w := fun n t => {| App.lat := 0; App.lng := 0; App.name := n;
                         App.address := None; App.type := t |} in
  let st := {| App.waypoints := [w "B" "waypoint"; w "C" "waypoint";
                                 w "Z" "destination"];
               App.optimizedRoute := Some tt;
               App.isOptimizing := false; App.backendStatus := "connected";
               App.isDarkTheme := true; App.error := None |} in
  let r := App.handleOptimize (fun _ => App.Thrown None) st in
  App.sent r = None
  /\ App.error (App.final r) = Some "Please add both start point and destination"
  /\ App.optimizedRoute (App.final r) = Some tt.
Proof. repeat split. Qed.

(** A response with [success: false] and no error text: the route stays
    and the default message is shown. *)
Example failure_keeps_route :
  let w := fun n t => {| App.lat := 0; App.lng := 0; App.name := n;
                         App.address := None; App.type := t |} in
  let st := {| App.waypoints := [w "A" "start"; w "Z" "destination"];
               App.optimizedRoute := Some 7;
               App.isOptimizing := false; App.backendStatus := "connected";
               App.isDarkTheme := true; App.error := None |} in
  let reply := App.Resolved (Some {| App.success := false; App.data := Some 9;
                                     App.r_error := None |}) in
  let r := App.handleOptimize (fun _ => reply) st in
  App.optimizedRoute (App.final r) = Some 7
  /\ App.error (App.final r) = Some "Optimization failed"
  /\ App.isOptimizing (App.final r) = false.
Proof. repeat split. Qed.

(** A second start is appended, and the first one is still the starting
    point. *)
Example second_start_appended :
  let a := {| App.lat := 0; App.lng := 0; App.name := "A";
              App.address := None; App.type := "start" |} in
  let st := {| App.waypoints := [a]; App.optimizedRoute := @None unit;
               App.isOptimizing := false; App.backendStatus := "connected";
               App.isDarkTheme := true; App.error := None |} in
  let st' := App.handleStartSelect
               (SearchBar.handleCitySelect (SearchBar.mk "Pune" "Maharashtra" 0 0)) st in
  map App.name (App.waypoints st') = ["A"; "Pune"]
  /\ map App.type (App.waypoints st') = ["start"; "start"]
  /\ App.startPoint st' = Some a.
Proof. repeat split. Qed.

(** The search effect on three terms: "pu" matches names and states and
    is cut after 8 rows, "pu " matches nothing because the blank is
    searched for too, and " p " is too short once trimmed. *)
Example search_pu :
  map SearchBar.name (SearchBar.shownResults (SearchBar.searchEffect "pu"))
  = ["Kanchipuram"; "Tiruppur"; "Puducherry"; "Karaikal"; "Yanam"; "Mahe";
     "Pune"; "Jaipur"].
Proof. vm_compute. reflexivity. Qed.

Example search_pu_blank :
  SearchBar.shownResults (SearchBar.searchEffect "pu ") = []
  /\ String.length (Js.trim "pu ") = 2.
Proof. vm_compute. split; reflexivity. Qed.

Example search_p :
  SearchBar.shownResults (SearchBar.searchEffect " p ") = [].
Proof. vm_compute. reflexivity. Qed.

(** * Properties of the optimizer core *)

Module CoreFacts.

Import Core.
Local Open Scope Q_scope.

(** ** The codec *)

Lemma key_le_iff (a b : Q * nat) : key_le a b = true <-> kle a b.
Proof.
  unfold key_le, kle.
  destruct (Qeq_bool (fst a) (fst b)) eqn:E.
  - apply Qeq_bool_iff in E. rewrite Nat.leb_le. split.
    + intros H. right. split; assumption.
    + intros [H | [_ H]]; [|exact H].
      rewrite E in H. exfalso. apply (Qlt_irrefl _ H).
  - apply Qeq_bool_neq in E. rewrite Qle_bool_iff. split.
    + intros H. left. apply Qle_lteq in H. destruct H as [H | H]; [exact H | contradiction].
    + intros [H | [H _]]; [apply Qlt_le_weak; exact H | contradiction].
Qed.

Lemma kle_total (a b : Q * nat) : key_le a b = false -> kle b a.
Proof.
  intros H. unfold kle.
  destruct (Qlt_le_dec (fst b) (fst a)) as [Hlt | Hle]; [left; exact Hlt|].
  apply Qle_lteq in Hle. destruct Hle as [Hlt | Heq].
  - assert (key_le a b = true) by (apply key_le_iff; left; exact Hlt). congruence.
  - right. split; [symmetry; exact Heq|].
    destruct (Nat.le_gt_cases (snd b) (snd a)) as [Hn | Hn]; [exact Hn|].
    assert (key_le a b = true) by (apply key_le_iff; right; split; [exact Heq | lia]).
    congruence.
Qed.

Lemma kle_trans (a b c : Q * nat) : kle a b -> kle b c -> kle a c.
Proof.
  unfold kle. intros [H1 | [H1 H1']] [H2 | [H2 H2']].
  - left. eapply Qlt_trans; eassumption.
  - left. rewrite <- H2. exact H1.
  - left. rewrite H1. exact H2.
  - right. split; [rewrite H1; exact H2 | lia].
Qed.

Lemma kle_antisym (a b : Q * nat) : kle a b -> kle b a -> snd a = snd b.
Proof.
  unfold kle. intros [H1 | [H1 H1']] [H2 | [H2 H2']].
  - exfalso. apply (Qlt_irrefl (fst a)). eapply Qlt_trans; eassumption.
  - exfalso. rewrite H2 in H1. apply (Qlt_irrefl _ H1).
  - exfalso. rewrite H1 in H2. apply (Qlt_irrefl _ H2).
  - lia.
Qed.

Lemma insert_perm (x : Q * nat) (l : list (Q * nat)) :
  Permutation (insert x l) (x :: l).
Proof.
  induction l as [|y l IH]; simpl; [reflexivity|].
  destruct (key_le x y); [reflexivity|].
  rewrite IH. apply perm_swap.
Qed.

Lemma sort_perm (l : list (Q * nat)) : Permutation (sort l) l.
Proof.
  induction l as [|x l IH]; simpl; [reflexivity|].
  rewrite insert_perm. now constructor.
Qed.

Lemma insert_sorted (x : Q * nat) (l : list (Q * nat)) :
  StronglySorted kle l -> StronglySorted kle (insert x l).
Proof.
  induction 1 as [|y l Hs IH Hall]; simpl.
  - constructor; constructor.
  - destruct (key_le x y) eqn:E.
    + apply key_le_iff in E. constructor.
      * constructor; assumption.
      * constructor; [exact E|].
        eapply Forall_impl; [|exact Hall]. intros z Hz. eapply kle_trans; eassumption.
    + apply kle_total in E. constructor; [exact IH|].
      rewrite (Forall_forall). intros z Hz.
      apply (Permutation_in _ (insert_perm x l)) in Hz.
      destruct Hz as [<- | Hz]; [exact E|].
      rewrite Forall_forall in Hall. now apply Hall.
Qed.

Lemma sort_sorted (l : list (Q * nat)) : StronglySorted kle (sort l).
Proof.
  induction l as [|x l IH]; simpl; [constructor | now apply insert_sorted].
Qed.

(** Two sorted arrangements of the same pairs agree when the indices are
    pairwise distinct. *)
Lemma sorted_unique (l1 : list (Q * nat)) :
  forall l2, StronglySorted kle l1 -> StronglySorted kle l2 ->
    Permutation l1 l2 -> NoDup (map snd l1) -> l1 = l2.
Proof.
  induction l1 as [|a l1 IH]; intros l2 S1 S2 P N.
  - apply Permutation_nil in P. now subst.
  - destruct l2 as [|b l2]; [apply Permutation_sym, Permutation_nil in P; discriminate|].
    inversion S1 as [|? ? S1' F1]; subst. inversion S2 as [|? ? S2' F2]; subst.
    inversion N as [|? ? Hnotin N']; subst.
    assert (a = b) as ->.
    { assert (Ha : In a (b :: l2)) by (apply (Permutation_in _ P); now left).
      assert (Hb : In b (a :: l1)) by (apply (Permutation_in _ (Permutation_sym P)); now left).
      destruct Ha as [Ha | Ha]; [now symmetry|].
      destruct Hb as [Hb | Hb]; [exact Hb|].
      rewrite Forall_forall in F1, F2.
      pose proof (kle_antisym _ _ (F1 _ Hb) (F2 _ Ha)) as E.
      exfalso. apply Hnotin. rewrite E. now apply in_map. }
    f_equal. apply IH; auto. eapply Permutation_cons_inv; eassumption.
Qed.

Lemma map_snd_combine {A B : Type} (l1 : list A) (l2 : list B) :
  length l1 = length l2 -> map snd (combine l1 l2) = l2.
Proof.
  revert l2; induction l1 as [|x l1 IH]; intros [|y l2]; simpl; try discriminate.
  - reflexivity.
  - intros [= H]. now rewrite IH.
Qed.

Lemma decode_perm (ks : KeyVector) :
  Permutation (decode ks) (seq 1 (length ks)).
Proof.
  unfold decode.
  rewrite (Permutation_map snd (sort_perm _)).
  rewrite map_snd_combine; [reflexivity | now rewrite length_seq].
Qed.

Lemma decode_length (ks : KeyVector) : length (decode ks) = length ks.
Proof.
  rewrite (Permutation_length (decode_perm ks)). apply length_seq.
Qed.

Lemma encode_length (t : Tour) : length (encode t) = length t.
Proof. unfold encode. now rewrite length_map, length_seq. Qed.

Lemma position_nodup (t : Tour) :
  NoDup t -> map (fun i => position i t) t = map Some (seq 0 (length t)).
Proof.
  induction t as [|x t IH]; intros N; [reflexivity|].
  inversion N as [|? ? Hx N']; subst.
  simpl. rewrite Nat.eqb_refl. f_equal.
  rewrite <- seq_shift, map_map.
  rewrite <- (map_map Some (option_map S)).
  rewrite <- IH by assumption. rewrite map_map.
  apply map_ext_in. intros i Hi.
  destruct (Nat.eqb_spec x i) as [-> | _]; [contradiction | reflexivity].
Qed.

Lemma spaced_lt (n k1 k2 : nat) : (k1 < k2)%nat -> spaced n k1 < spaced n k2.
Proof.
  intros H. unfold spaced, Qlt. simpl.
  apply Z.mul_lt_mono_pos_r; [reflexivity | lia].
Qed.

Lemma spaced_seq_sorted (n a m : nat) :
  StronglySorted Qlt (map (spaced n) (seq a m)).
Proof.
  revert a; induction m as [|m IH]; intros a; simpl; constructor.
  - apply IH.
  - rewrite Forall_forall. intros q Hq.
    apply in_map_iff in Hq. destruct Hq as [k [<- Hk]].
    apply in_seq in Hk. apply spaced_lt. lia.
Qed.

Lemma combine_sorted (ks : list Q) :
  forall xs : list nat, StronglySorted Qlt ks -> StronglySorted kle (combine ks xs).
Proof.
  induction ks as [|k ks IH]; intros xs S; simpl; [constructor|].
  destruct xs as [|x xs]; [constructor|].
  inversion S as [|? ? S' F]; subst. constructor; [now apply IH|].
  rewrite Forall_forall. intros [k' x'] Hin.
  apply in_combine_l in Hin. rewrite Forall_forall in F.
  left. simpl. now apply F.
Qed.

Lemma combine_map_l {A B : Type} (f : A -> B) (l : list A) :
  combine (map f l) l = map (fun x => (f x, x)) l.
Proof. induction l as [|x l IH]; simpl; [reflexivity | now rewrite IH]. Qed.

(** The pairs (key, index) of an encoded tour, listed in tour order, are
    sorted. *)
Lemma encoded_in_tour_order (t : Tour) (key : nat -> Q) :
  NoDup t ->
  (forall i, key i = match position i t with
                     | Some k => spaced (length t) k
                     | None => 0
                     end) ->
  StronglySorted kle (map (fun i => (key i, i)) t).
Proof.
  intros N Hkey.
  rewrite <- combine_map_l.
  apply combine_sorted.
  replace (map key t) with (map (spaced (length t)) (seq 0 (length t))).
  - apply spaced_seq_sorted.
  - rewrite (map_ext _ _ Hkey).
    rewrite <- (map_map (fun i => position i t)
                  (fun o => match o with Some k => spaced (length t) k | None => 0 end)).
    rewrite position_nodup by assumption. now rewrite map_map.
Qed.

(** C2: decoding the key vector that encodes a valid tour gives the tour
    back. *)
Theorem decode_encode (t : Tour) : valid_tour t -> decode (encode t) = t.
Proof.
  unfold valid_tour. intros V.
  assert (N : NoDup t).
  { apply (Permutation_NoDup (Permutation_sym V)), seq_NoDup. }
  unfold decode. rewrite encode_length. unfold encode.
  set (key := fun i => match position i t with
                       | Some k => spaced (length t) k
                       | None => 0
                       end).
  rewrite combine_map_l.
  rewrite (sorted_unique _ (map (fun i => (key i, i)) t)).
  - rewrite map_map. simpl. apply map_id.
  - apply sort_sorted.
  - now apply encoded_in_tour_order.
  - rewrite sort_perm. apply Permutation_map. now symmetry.
  - rewrite (Permutation_map snd (sort_perm _)).
    rewrite map_map. simpl. rewrite map_id. apply seq_NoDup.
Qed.

(** C2 at the tour 2, 3, 1. *)
Lemma decode_encode_witness :
  valid_tour [2; 3; 1]%nat /\ decode (encode [2; 3; 1]%nat) = [2; 3; 1]%nat.
Proof.
  assert (V : valid_tour [2; 3; 1]%nat).
  { unfold valid_tour. simpl.
    apply Permutation_sym, (Permutation_cons_app [2; 3]%nat []). reflexivity. }
  split; [exact V | exact (decode_encode _ V)].
Defined.

(** ** The local search refiner *)

Lemma two_opt_move_perm (p : list nat) (i j : nat) :
  (i < j)%nat -> Permutation (two_opt_move p i j) p.
Proof.
  intros H. unfold two_opt_move.
  rewrite <- (firstn_skipn (i + 1) p) at 4.
  apply Permutation_app_head.
  rewrite <- (firstn_skipn (j - i) (skipn (i + 1) p)) at 2.
  rewrite skipn_skipn. replace (j - i + (i + 1))%nat with (j + 1)%nat by lia.
  apply Permutation_app_tail. symmetry. apply Permutation_rev.
Qed.

Lemma two_opt_move_hd (p : list nat) (i j : nat) :
  hd_error (two_opt_move p i j) = hd_error p.
Proof.
  unfold two_opt_move. replace (i + 1)%nat with (S i) by lia.
  destruct p as [|x p]; simpl; [|reflexivity].
  rewrite firstn_nil, skipn_nil. reflexivity.
Qed.

Lemma last_app_nonempty {A : Type} (l l' : list A) (d : A) :
  l' <> [] -> last (l ++ l') d = last l' d.
Proof.
  intros H. induction l as [|x l IH]; [reflexivity|].
  simpl. rewrite IH. destruct (l ++ l') eqn:E; [|reflexivity].
  apply app_eq_nil in E. destruct E as [_ E]. contradiction.
Qed.

Lemma two_opt_move_last (p : list nat) (i j d : nat) :
  (j + 1 < length p)%nat -> last (two_opt_move p i j) d = last p d.
Proof.
  intros H. unfold two_opt_move.
  rewrite <- (firstn_skipn (j + 1) p) at 4.
  assert (Hne : skipn (j + 1) p <> []).
  { intros E. apply (f_equal (@length nat)) in E.
    rewrite length_skipn in E. simpl in E. lia. }
  rewrite app_assoc. rewrite !last_app_nonempty by exact Hne. reflexivity.
Qed.

Lemma edge_pairs_in (m i j : nat) :
  In (i, j) (edge_pairs m) <-> (i < j)%nat /\ (j < m)%nat.
Proof.
  unfold edge_pairs. rewrite in_flat_map. split.
  - intros [i' [Hi Hin]]. apply in_seq in Hi.
    apply in_map_iff in Hin. destruct Hin as [j' [[= <- <-] Hj]].
    apply in_seq in Hj. lia.
  - intros [H1 H2]. exists i. split; [apply in_seq; lia|].
    apply in_map_iff. exists j. split; [reflexivity | apply in_seq; lia].
Qed.

Lemma Qlt_bool_iff (a b : Q) : Qlt_bool a b = true <-> a < b.
Proof.
  unfold Qlt_bool. rewrite negb_true_iff. split.
  - intros H. apply Qnot_le_lt. intros Hle.
    apply Qle_bool_iff in Hle. congruence.
  - intros H. destruct (Qle_bool b a) eqn:E; [|reflexivity].
    apply Qle_bool_iff in E. exfalso. apply (Qlt_not_le _ _ H E).
Qed.

Lemma first_improving_some (D : Matrix) (p : list nat) (i j : nat) :
  first_improving D p = Some (i, j) ->
  (i < j)%nat /\ (j + 1 < length p)%nat /\
  path_cost D (two_opt_move p i j) < path_cost D p.
Proof.
  unfold first_improving. intros H. apply find_some in H.
  destruct H as [Hin Himp]. apply edge_pairs_in in Hin.
  unfold improves in Himp. apply Qlt_bool_iff in Himp. simpl in Himp.
  repeat split; [lia | lia | exact Himp].
Qed.

Lemma first_improving_none (D : Matrix) (p : list nat) :
  first_improving D p = None -> two_opt_optimal D p.
Proof.
  unfold first_improving, two_opt_optimal. intros H i j Hij Hj Hlt.
  assert (Hin : In (i, j) (edge_pairs (length p - 1))) by (apply edge_pairs_in; lia).
  apply (find_none _ _ H) in Hin. unfold improves in Hin. simpl in Hin.
  apply Qlt_bool_iff in Hlt. congruence.
Qed.

(** What every pass keeps: the places visited, the first and the last
    place; the cost never grows. *)
Lemma refine_keeps (cap : nat) (D : Matrix) :
  forall p : list nat,
    Permutation (fst (refine cap D p)) p /\
    hd_error (fst (refine cap D p)) = hd_error p /\
    (forall d, last (fst (refine cap D p)) d = last p d) /\
    path_cost D (fst (refine cap D p)) <= path_cost D p.
Proof.
  induction cap as [|cap IH]; intros p; simpl.
  - repeat split; auto. apply Qle_refl.
  - destruct (first_improving D p) as [[i j]|] eqn:E; simpl.
    + apply first_improving_some in E. destruct E as [Hij [Hj Hlt]].
      destruct (IH (two_opt_move p i j)) as [HP [Hh [Hl Hc]]].
      split; [rewrite HP; now apply two_opt_move_perm|].
      split; [rewrite Hh; apply two_opt_move_hd|].
      split; [intros d; rewrite Hl; now apply two_opt_move_last|].
      eapply Qle_trans; [exact Hc | apply Qlt_le_weak; exact Hlt].
    + repeat split; auto. apply Qle_refl.
Qed.

Lemma words_in (pool : list nat) (q : list nat) :
  Forall (fun x => In x pool) q -> In q (words (length q) pool).
Proof.
  induction 1 as [|x q Hx Hq IH]; simpl; [now left|].
  apply in_flat_map. exists x. split; [exact Hx | now apply in_map].
Qed.

Lemma filter_length_le {A : Type} (f g : A -> bool) (l : list A) :
  (forall x, f x = true -> g x = true) ->
  (length (filter f l) <= length (filter g l))%nat.
Proof.
  intros H. induction l as [|x l IH]; simpl; [lia|].
  destruct (f x) eqn:E; [rewrite (H _ E); simpl; lia|].
  destruct (g x); simpl; lia.
Qed.

Lemma filter_length_lt {A : Type} (f g : A -> bool) (l : list A) (y : A) :
  (forall x, f x = true -> g x = true) ->
  In y l -> g y = true -> f y = false ->
  (length (filter f l) < length (filter g l))%nat.
Proof.
  intros H. induction l as [|x l IH]; simpl; [contradiction|].
  intros [-> | Hin] Hg Hf.
  - rewrite Hg, Hf. simpl. pose proof (filter_length_le f g l H). lia.
  - specialize (IH Hin Hg Hf).
    destruct (f x) eqn:E; [rewrite (H _ E); simpl; lia|].
    destruct (g x); simpl; lia.
Qed.

(** An improving move lowers the rank. *)
Lemma rank_decreases (D : Matrix) (pool q q' : list nat) :
  Permutation q' pool ->
  path_cost D q' < path_cost D q ->
  (rank D pool q' < rank D pool q)%nat.
Proof.
  intros P Hlt. unfold rank. apply filter_length_lt with (y := q').
  - intros r Hr. apply Qlt_bool_iff in Hr. apply Qlt_bool_iff.
    eapply Qlt_trans; eassumption.
  - rewrite <- (Permutation_length P). apply words_in.
    rewrite Forall_forall. intros x Hx. apply (Permutation_in _ P Hx).
  - now apply Qlt_bool_iff.
  - destruct (Qlt_bool (path_cost D q') (path_cost D q')) eqn:E; [|reflexivity].
    apply Qlt_bool_iff in E. exfalso. apply (Qlt_irrefl _ E).
Qed.

Lemma refine_converges_from (D : Matrix) (pool : list nat) (c : nat) :
  forall q, Permutation q pool -> (rank D pool q <= c)%nat ->
    snd (refine (S c) D q) = true.
Proof.
  induction c as [|c IH]; intros q P Hr;
    change (refine (S ?k) D q)
      with (match first_improving D q with
            | None => (q, true)
            | Some ij => refine k D (two_opt_move q (fst ij) (snd ij))
            end);
    destruct (first_improving D q) as [[i j]|] eqn:E; try reflexivity;
    apply first_improving_some in E; destruct E as [Hij [Hj Hlt]];
    assert (P' : Permutation (two_opt_move q i j) pool)
      by (rewrite <- P; now apply two_opt_move_perm);
    pose proof (rank_decreases D pool q _ P' Hlt) as Hdec; cbn [fst snd].
  - lia.
  - apply IH; [exact P' | lia].
Qed.

(** C3, as the refiner provides it: when the run ended on a scan that
    found no improving move, and not on the pass cap, no single 2-opt move
    strictly improves the output; and that is how the run ends whenever
    the cap exceeds the number of arrangements of the path that are
    cheaper than it. *)
Theorem refine_local_optimum (D : Matrix) (p : list nat) :
  (forall cap, snd (refine cap D p) = true ->
     two_opt_optimal D (fst (refine cap D p))) /\
  (forall cap, (rank D p p < cap)%nat ->
     snd (refine cap D p) = true /\ two_opt_optimal D (fst (refine cap D p))).
Proof.
  assert (H : forall cap q, snd (refine cap D q) = true ->
                two_opt_optimal D (fst (refine cap D q))).
  { induction cap as [|cap IH]; intros q; simpl; [discriminate|].
    destruct (first_improving D q) as [[i j]|] eqn:E; simpl.
    - apply IH.
    - intros _. now apply first_improving_none. }
  split; [intros cap; apply H|].
  intros cap Hcap. destruct cap as [|c]; [lia|].
  assert (Hc : snd (refine (S c) D p) = true)
    by (apply (refine_converges_from D p); [reflexivity | lia]).
  split; [exact Hc | now apply H].
Qed.

(** C3 on six points of a line, with 5 passes allowed. *)
Lemma refine_local_optimum_witness :
  snd (refine 5 Examples.line (full_path [2; 1; 4; 3]%nat)) = true /\
  two_opt_optimal Examples.line
    (fst (refine 5 Examples.line (full_path [2; 1; 4; 3]%nat))).
Proof.
  assert (H : snd (refine 5 Examples.line (full_path [2; 1; 4; 3]%nat)) = true)
    by (vm_compute; reflexivity).
  split; [exact H|].
  exact (proj1 (refine_local_optimum Examples.line (full_path [2; 1; 4; 3]%nat))
           5%nat H).
Defined.

(** C3 fails as stated: with a cap of one pass the refiner turns the tour
    2,1,4,3 between the end points 0 and 5 into the path 0,1,2,4,3,5,
    which reversing the places 3 and 4 still shortens. *)
Lemma refine_capped_not_optimal :
  valid_tour [2; 1; 4; 3]%nat /\
  fst (refine 1 Examples.line (full_path [2; 1; 4; 3]%nat))
    = [0; 1; 2; 4; 3; 5]%nat /\
  ~ two_opt_optimal Examples.line
      (fst (refine 1 Examples.line (full_path [2; 1; 4; 3]%nat))).
Proof.
  split.
  { unfold valid_tour. simpl.
    apply perm_trans with (l' := [1; 2; 4; 3]%nat); [apply perm_swap|].
    do 2 apply perm_skip. apply perm_swap. }
  split; [vm_compute; reflexivity|].
  intros H. apply (H 2%nat 4%nat); [lia | simpl; lia | vm_compute; reflexivity].
Qed.

(** The same with a cap of 20 passes, on 21 swapped pairs: the last pair
    is left swapped. *)
Lemma refine_capped_20_not_optimal :
  ~ two_opt_optimal Examples.line (fst (refine 20 Examples.line (Examples.zigzag 21))).
Proof.
  assert (E : fst (refine 20 Examples.line (Examples.zigzag 21))
              = seq 0 41 ++ [42; 41; 43]%nat) by (vm_compute; reflexivity).
  rewrite E. intros H.
  apply (H 40%nat 42%nat); [lia | simpl; lia | vm_compute; reflexivity].
Qed.

(** ** Shape invariants of the two phases *)

Lemma always_ret {S A : Type} (a : A) (P : A -> Prop) :
  P a -> always (@ret S A a) P.
Proof. intros H s. exact H. Qed.

Lemma always_bind {S A B : Type} (m : State S A) (k : A -> State S B)
    (P : A -> Prop) (Q' : B -> Prop) :
  always m P -> (forall a, P a -> always (k a) Q') -> always (bind m k) Q'.
Proof.
  intros Hm Hk s. unfold bind. specialize (Hm s).
  destruct (m s) as [a s']. simpl in Hm. exact (Hk a Hm s').
Qed.

Lemma always_true {S A : Type} (m : State S A) : always m (fun _ => True).
Proof. intros s. exact I. Qed.

Lemma always_mapM {S A B : Type} (f : A -> State S B) (P : B -> Prop)
    (l : list A) :
  (forall x, In x l -> always (f x) P) -> always (mapM f l) (Forall P).
Proof.
  induction l as [|x l IH]; intros H; simpl.
  - apply always_ret. constructor.
  - eapply always_bind; [apply H; now left|]. intros y Hy.
    eapply always_bind; [apply IH; intros z Hz; apply H; now right|].
    intros ys Hys. apply always_ret. now constructor.
Qed.

Lemma always_replicateM {S A : Type} (m : State S A) (P : A -> Prop) (n : nat) :
  always m P ->
  always (replicateM n m) (fun l => length l = n /\ Forall P l).
Proof.
  intros H. induction n as [|n IH]; simpl.
  - apply always_ret. split; [reflexivity | constructor].
  - eapply always_bind; [exact H|]. intros x Hx.
    eapply always_bind; [exact IH|]. intros xs [Hl Hxs].
    apply always_ret. split; [simpl; now rewrite Hl | now constructor].
Qed.

Lemma zipWith_length {A B C : Type} (f : A -> B -> C) (l1 : list A) (l2 : list B) :
  length (zipWith f l1 l2) = Nat.min (length l1) (length l2).
Proof. unfold zipWith. now rewrite length_map, length_combine. Qed.

Lemma better_sized (n : nat) (a b : Candidate) :
  sized n a -> sized n b -> sized n (better a b).
Proof. intros Ha Hb. unfold better. now destruct (Qlt_bool _ _). Qed.

Lemma best_of_sized (n : nat) (l : list Candidate) :
  forall c, sized n c -> Forall (sized n) l -> sized n (best_of c l).
Proof.
  unfold best_of. induction l as [|x l IH]; intros c Hc Hl; simpl; [exact Hc|].
  inversion Hl; subst. apply IH; [now apply better_sized | assumption].
Qed.

Lemma canonical_sized (n : nat) (c : Candidate) :
  sized n c -> sized n (canonical c).
Proof.
  unfold sized, canonical. simpl. intros H.
  now rewrite encode_length, decode_length.
Qed.

Section PhaseFacts.

Context {R : Type} {RNG : Rng R} {NUM : Numerics}.

Variables (cfg : Config) (D : Matrix) (n : nat).

Lemma init_candidate_sized : always (init_candidate cfg D n) (qsized n).
Proof.
  unfold init_candidate.
  eapply always_bind; [apply (always_replicateM U01 (fun _ => True)), always_true|].
  intros ks [Hl _]. apply always_ret. split; simpl.
  - apply repeat_length.
  - exact Hl.
Qed.

Lemma input_order_candidate_sized : qsized n (input_order_candidate cfg D n).
Proof.
  split; simpl.
  - apply repeat_length.
  - unfold sized. simpl. now rewrite encode_length, length_seq.
Qed.

Lemma init_quantum_ok : always (init_quantum cfg D n) (qstate_ok n).
Proof.
  unfold init_quantum. cbv zeta.
  pose proof input_order_candidate_sized as H0.
  eapply always_bind; [apply always_replicateM, init_candidate_sized|].
  intros rest [_ Hrest]. apply always_ret. split; simpl.
  - now constructor.
  - apply best_of_sized; [apply H0|].
    rewrite Forall_map. eapply Forall_impl; [|exact Hrest]. now intros c [_ Hc].
Qed.

Lemma quantum_move_sized (t : nat) (temp : Q) (gbest : Candidate) (c : QCandidate) :
  sized n gbest -> qsized n c ->
  always (quantum_move cfg D t temp gbest c) (qsized n).
Proof.
  intros Hb [Ha Hc]. unfold quantum_move.
  eapply always_bind; [apply (always_replicateM U01 (fun _ => True)), always_true|].
  intros us [Hl _]. rewrite length_map in Hl.
  assert (Hnew : qsized n {| amplitudes := map (rotate (anneal_angle cfg t)) (amplitudes c);
                             current := evaluate D (collapse_all
                               (map (rotate (anneal_angle cfg t)) (amplitudes c))
                               (keys gbest) us) |}).
  { split; simpl; [now rewrite length_map|].
    unfold sized, collapse_all. simpl.
    rewrite zipWith_length, length_map, length_combine.
    unfold sized in Hb. lia. }
  destruct (Qlt_bool _ _); [now apply always_ret|].
  eapply always_bind; [apply always_true|]. intros u _.
  destruct (Qlt_bool _ _); apply always_ret; [exact Hnew|].
  split; simpl; [now rewrite length_map | exact Hc].
Qed.

Lemma quantum_iteration_ok (t : nat) (s : QState) :
  qstate_ok n s -> always (quantum_iteration cfg D t s) (qstate_ok n).
Proof.
  intros [Hp Hb]. unfold quantum_iteration.
  eapply always_bind.
  - apply always_mapM. intros c Hc. apply quantum_move_sized; [exact Hb|].
    rewrite Forall_forall in Hp. now apply Hp.
  - intros pop' Hpop. apply always_ret. split; simpl; [exact Hpop|].
    apply best_of_sized; [exact Hb|].
    rewrite Forall_map. eapply Forall_impl; [|exact Hpop]. now intros c [_ Hc].
Qed.

Lemma quantum_loop_ok (cancel : State (World R) bool) (ts : list nat) :
  forall s, qstate_ok n s -> always (quantum_loop cfg D cancel ts s) (qstate_ok n).
Proof.
  induction ts as [|t ts IH]; intros s Hs; simpl.
  - now apply always_ret.
  - destruct (patience cfg <=? qstall s)%nat; [now apply always_ret|].
    eapply always_bind; [apply always_true|]. intros [|] _.
    + apply always_ret. exact Hs.
    + eapply always_bind; [now apply quantum_iteration_ok|]. exact IH.
Qed.

Lemma seed_whales_ok (q : QState) : qstate_ok n q -> wstate_ok n (seed_whales q).
Proof.
  intros [Hp Hb]. split; simpl.
  - rewrite Forall_map. eapply Forall_impl; [|exact Hp].
    intros c [_ Hc]. now apply canonical_sized.
  - now apply canonical_sized.
Qed.

Lemma pick_sized (u : Q) (pop : list Candidate) (x : Candidate) :
  Forall (sized n) pop -> sized n x -> sized n (pick u pop x).
Proof.
  intros Hp Hx. unfold pick.
  destruct (nth_in_or_default
              (Z.to_nat (Qfloor (u * inject_Z (Z.of_nat (length pop))))) pop x)
    as [Hin | ->]; [|exact Hx].
  rewrite Forall_forall in Hp. now apply Hp.
Qed.

Lemma whale_move_sized (a : Q) (lead : Candidate) (pop : list Candidate)
    (x : Candidate) :
  sized n lead -> Forall (sized n) pop -> sized n x ->
  always (whale_move cfg D a lead pop x) (sized n).
Proof.
  intros Hl Hp Hx. unfold whale_move.
  eapply always_bind; [apply always_true|]. intros r1 _.
  eapply always_bind; [apply always_true|]. intros r2 _.
  eapply always_bind; [apply always_true|]. intros p _.
  eapply always_bind with (P := fun x' : KeyVector => length x' = n).
  - destruct (Qlt_bool p (1 # 2)); [destruct (Qlt_bool _ 1)|].
    + apply always_ret. unfold encircle. rewrite zipWith_length.
      unfold sized in *. lia.
    + eapply always_bind; [apply always_true|]. intros u _.
      apply always_ret. unfold encircle. rewrite zipWith_length.
      pose proof (pick_sized u pop x Hp Hx). unfold sized in *. lia.
    + eapply always_bind; [apply always_true|]. intros u _.
      apply always_ret. unfold spiral. rewrite zipWith_length.
      unfold sized in *. lia.
  - intros x' Hx'. apply always_ret.
    destruct (Qlt_bool _ _); [|exact Hx].
    unfold sized. simpl. now rewrite length_map.
Qed.

Lemma whale_iteration_ok (t : nat) (s : WState) :
  wstate_ok n s -> always (whale_iteration cfg D t s) (wstate_ok n).
Proof.
  intros [Hp Hl]. unfold whale_iteration.
  eapply always_bind.
  - apply always_mapM. intros x Hx. apply whale_move_sized; auto.
    rewrite Forall_forall in Hp. now apply Hp.
  - intros pop' Hpop. apply always_ret. split; simpl; [exact Hpop|].
    now apply best_of_sized.
Qed.

Lemma whale_loop_ok (cancel : State (World R) bool) (ts : list nat) :
  forall s, wstate_ok n s -> always (whale_loop cfg D cancel ts s) (wstate_ok n).
Proof.
  induction ts as [|t ts IH]; intros s Hs; simpl.
  - now apply always_ret.
  - destruct (patience cfg <=? wstall s)%nat; [now apply always_ret|].
    eapply always_bind; [apply always_true|]. intros [|] _.
    + apply always_ret. exact Hs.
    + eapply always_bind; [now apply whale_iteration_ok|]. exact IH.
Qed.

(** The candidate handed to the refiner has one key per interior
    waypoint. *)
Lemma search_sized (cancel : State (World R) bool) :
  always (search cfg D n cancel) (fun out => sized n (best out)).
Proof.
  unfold search.
  eapply always_bind; [apply init_quantum_ok|]. intros q0 H0.
  eapply always_bind; [now apply quantum_loop_ok|]. intros q [Hp Hb].
  destruct (qcancelled q).
  - apply always_ret. exact Hb.
  - eapply always_bind; [apply whale_loop_ok, seed_whales_ok; now split|].
    intros w [_ Hw]. apply always_ret. exact Hw.
Qed.

End PhaseFacts.

Lemma decode_of_encode (t : Tour) :
  Permutation t (seq 1 (length t)) -> decode (encode t) = t.
Proof.
  intros V.
  assert (N : NoDup t).
  { apply (Permutation_NoDup (Permutation_sym V)), seq_NoDup. }
  unfold decode. rewrite encode_length. unfold encode.
  set (key := fun i => match position i t with
                       | Some k => spaced (length t) k
                       | None => 0
                       end).
  rewrite combine_map_l.
  rewrite (sorted_unique _ (map (fun i => (key i, i)) t)).
  - rewrite map_map. simpl. apply map_id.
  - apply sort_sorted.
  - now apply encoded_in_tour_order.
  - rewrite sort_perm. apply Permutation_map. now symmetry.
  - rewrite (Permutation_map snd (sort_perm _)).
    rewrite map_map. simpl. rewrite map_id. apply seq_NoDup.
Qed.

(** ** Elitism: the best-ever candidate is never dropped *)

Lemma evaluate_consistent (D : Matrix) (ks : KeyVector) : consistent D (evaluate D ks).
Proof. reflexivity. Qed.

Lemma canonical_consistent (D : Matrix) (c : Candidate) :
  consistent D c -> consistent D (canonical c).
Proof.
  unfold consistent, canonical. simpl. intros ->.
  rewrite decode_of_encode; [reflexivity|].
  rewrite decode_length. apply decode_perm.
Qed.

Lemma input_order_fitness (D : Matrix) (n : nat) :
  cost (evaluate D (encode (seq 1 n))) = path_cost D (naive_path (n + 2)).
Proof.
  unfold evaluate, fitness, naive_path. simpl.
  rewrite decode_of_encode by (now rewrite length_seq).
  unfold full_path. rewrite length_seq.
  replace (n + 2)%nat with (S (S n)) by lia.
  change (seq 0 (S (S n))) with (0%nat :: seq 1 (S n)).
  now rewrite (seq_S n 1).
Qed.

Lemma better_le (a b : Candidate) : cost (better a b) <= cost a.
Proof.
  unfold better. destruct (Qlt_bool (cost b) (cost a)) eqn:E.
  - apply Qlt_le_weak. now apply Qlt_bool_iff.
  - apply Qle_refl.
Qed.

Lemma better_consistent (D : Matrix) (a b : Candidate) :
  consistent D a -> consistent D b -> consistent D (better a b).
Proof. intros Ha Hb. unfold better. now destruct (Qlt_bool _ _). Qed.

Lemma best_of_le (l : list Candidate) :
  forall c, cost (best_of c l) <= cost c.
Proof.
  unfold best_of. induction l as [|x l IH]; intros c; simpl; [apply Qle_refl|].
  eapply Qle_trans; [apply IH | apply better_le].
Qed.

Lemma best_of_consistent (D : Matrix) (l : list Candidate) :
  forall c, consistent D c -> Forall (consistent D) l -> consistent D (best_of c l).
Proof.
  unfold best_of. induction l as [|x l IH]; intros c Hc Hl; simpl; [exact Hc|].
  inversion Hl; subst. apply IH; [now apply better_consistent | assumption].
Qed.

Section ElitismFacts.

Context {R : Type} {RNG : Rng R} {NUM : Numerics}.

Variables (cfg : Config) (D : Matrix) (n : nat).

Lemma init_candidate_consistent :
  always (init_candidate cfg D n) (fun c => consistent D (current c)).
Proof.
  unfold init_candidate.
  eapply always_bind; [apply always_true|]. intros ks _.
  apply always_ret. apply evaluate_consistent.
Qed.

(** The first best-ever candidate costs no more than the input order. *)
Lemma init_quantum_elite :
  always (init_quantum cfg D n)
         (qstate_elite D (path_cost D (naive_path (n + 2)))).
Proof.
  unfold init_quantum. cbv zeta.
  eapply always_bind; [apply always_replicateM, init_candidate_consistent|].
  intros rest [_ Hrest]. apply always_ret.
  assert (Hr : Forall (consistent D) (map current rest)) by now rewrite Forall_map.
  split; [|split]; simpl.
  - constructor; [apply evaluate_consistent | exact Hrest].
  - apply best_of_consistent; [apply evaluate_consistent | exact Hr].
  - eapply Qle_trans; [apply best_of_le|].
    cbn [current input_order_candidate]. rewrite input_order_fitness. apply Qle_refl.
Qed.

Lemma quantum_move_consistent (t : nat) (temp : Q) (gbest : Candidate)
    (c : QCandidate) :
  consistent D (current c) ->
  always (quantum_move cfg D t temp gbest c) (fun c' => consistent D (current c')).
Proof.
  intros Hc. unfold quantum_move.
  eapply always_bind; [apply always_true|]. intros us _.
  destruct (Qlt_bool _ _); [apply always_ret, evaluate_consistent|].
  eapply always_bind; [apply always_true|]. intros u _.
  destruct (Qlt_bool _ _); apply always_ret; [apply evaluate_consistent | exact Hc].
Qed.

Lemma quantum_iteration_elite (b : Q) (t : nat) (s : QState) :
  qstate_elite D b s -> always (quantum_iteration cfg D t s) (qstate_elite D b).
Proof.
  intros [Hp [Hc Hb]]. unfold quantum_iteration.
  eapply always_bind.
  - apply always_mapM. intros c Hin. apply quantum_move_consistent.
    rewrite Forall_forall in Hp. now apply Hp.
  - intros pop' Hpop. apply always_ret. split; [|split]; simpl.
    + exact Hpop.
    + apply best_of_consistent; [exact Hc | rewrite Forall_map; exact Hpop].
    + eapply Qle_trans; [apply best_of_le | exact Hb].
Qed.

Lemma quantum_loop_elite (b : Q) (cancel : State (World R) bool) (ts : list nat) :
  forall s, qstate_elite D b s ->
    always (quantum_loop cfg D cancel ts s) (qstate_elite D b).
Proof.
  induction ts as [|t ts IH]; intros s Hs; simpl.
  - now apply always_ret.
  - destruct (patience cfg <=? qstall s)%nat; [now apply always_ret|].
    eapply always_bind; [apply always_true|]. intros [|] _.
    + apply always_ret. exact Hs.
    + eapply always_bind; [apply quantum_iteration_elite; exact Hs|]. exact IH.
Qed.

Lemma seed_whales_elite (b : Q) (q : QState) :
  qstate_elite D b q -> wstate_elite D b (seed_whales q).
Proof.
  intros [Hp [Hc Hb]]. split; [|split]; simpl.
  - rewrite Forall_map. eapply Forall_impl; [|exact Hp].
    intros c. apply canonical_consistent.
  - now apply canonical_consistent.
  - exact Hb.
Qed.

Lemma whale_move_consistent (a : Q) (lead : Candidate) (pop : list Candidate)
    (x : Candidate) :
  consistent D x -> always (whale_move cfg D a lead pop x) (consistent D).
Proof.
  intros Hx. unfold whale_move.
  eapply always_bind; [apply always_true|]. intros r1 _.
  eapply always_bind; [apply always_true|]. intros r2 _.
  eapply always_bind; [apply always_true|]. intros p _.
  eapply always_bind; [apply always_true|]. intros x' _.
  apply always_ret. destruct (Qlt_bool _ _); [apply evaluate_consistent | exact Hx].
Qed.

Lemma whale_iteration_elite (b : Q) (t : nat) (s : WState) :
  wstate_elite D b s -> always (whale_iteration cfg D t s) (wstate_elite D b).
Proof.
  intros [Hp [Hc Hb]]. unfold whale_iteration.
  eapply always_bind.
  - apply always_mapM. intros x Hin. apply whale_move_consistent.
    rewrite Forall_forall in Hp. now apply Hp.
  - intros pop' Hpop. apply always_ret. split; [|split]; simpl.
    + exact Hpop.
    + now apply best_of_consistent.
    + eapply Qle_trans; [apply best_of_le | exact Hb].
Qed.

Lemma whale_loop_elite (b : Q) (cancel : State (World R) bool) (ts : list nat) :
  forall s, wstate_elite D b s ->
    always (whale_loop cfg D cancel ts s) (wstate_elite D b).
Proof.
  induction ts as [|t ts IH]; intros s Hs; simpl.
  - now apply always_ret.
  - destruct (patience cfg <=? wstall s)%nat; [now apply always_ret|].
    eapply always_bind; [apply always_true|]. intros [|] _.
    + apply always_ret. exact Hs.
    + eapply always_bind; [apply whale_iteration_elite; exact Hs|]. exact IH.
Qed.

(** The tour of the candidate handed to the refiner costs no more than
    the input order, whenever the search stops. *)
Lemma search_elite (cancel : State (World R) bool) :
  always (search cfg D n cancel)
         (fun out => fitness D (decode (keys (best out)))
                     <= path_cost D (naive_path (n + 2))).
Proof.
  unfold search.
  eapply always_bind; [apply init_quantum_elite|]. intros q0 H0.
  eapply always_bind; [apply quantum_loop_elite; exact H0|]. intros q Hq.
  destruct (qcancelled q).
  - apply always_ret. destruct Hq as [_ [Hc Hb]]. simpl.
    unfold consistent in Hc. now rewrite <- Hc.
  - eapply always_bind; [apply whale_loop_elite, seed_whales_elite; exact Hq|].
    intros w [_ [Hc Hb]]. apply always_ret. simpl.
    unfold consistent in Hc. now rewrite <- Hc.
Qed.

End ElitismFacts.

(** ** The orchestrator *)

Lemma full_path_decode (ks : KeyVector) (n : nat) :
  length ks = n ->
  Permutation (full_path (decode ks)) (seq 0 (n + 2)) /\
  hd_error (full_path (decode ks)) = Some 0%nat /\
  (forall d, last (full_path (decode ks)) d = (n + 1)%nat).
Proof.
  intros H. unfold full_path. rewrite decode_length, H.
  split; [|split].
  - replace (n + 2)%nat with (S (S n)) by lia.
    change (seq 0 (S (S n))) with (0%nat :: seq 1 (S n)).
    rewrite (seq_S n 1). constructor.
    apply Permutation_app_tail. rewrite <- H. apply decode_perm.
  - reflexivity.
  - intros d. rewrite app_comm_cons, last_last. lia.
Qed.

Section OrchestratorFacts.

Context {R : Type} {RNG : Rng R} {NUM : Numerics} {RP : RoutingProvider}.

(** The two ways a run on at least 2 locations ends: the degenerate
    shortcut, or the refined tour of the candidate that [search] returns
    from the state left by the first clock reading. *)
Lemma run_cases (cfg : Config) (clock : nat -> Q) (locations : list Location) :
  (2 <= length locations)%nat ->
  let N := length locations in
  let D := fst (matrix_ready cfg locations) in
  let w1 := {| rng := seed_rng (seed cfg); reads := 1 |} in
  exists r, run cfg clock locations = inr r /\
    (((N - 2 <= 1)%nat /\ order r = seq 0 N /\
      iterations_quantum r = O /\ iterations_whale r = O) \/
     ((2 <= N - 2)%nat /\
      let out := fst (search cfg D (N - 2) (expired cfg clock (clock O)) w1) in
      order r = fst (refine (max_passes cfg) D (full_path (decode (keys (best out)))))
      /\ sized (N - 2) (best out))) /\
    total_distance_km r = path_cost D (order r).
Proof.
  intros H N D w1. unfold run, optimize, bind, now. cbn [rng reads].
  destruct (Nat.ltb_spec (length locations) 2) as [Hlt | _]; [lia|].
  destruct (Nat.leb_spec (length locations - 2) 1) as [Hle | Hgt].
  - eexists. split; [reflexivity|]. split; [|reflexivity].
    left. repeat split. exact Hle.
  - fold D. fold w1.
    pose proof (search_sized cfg D (length locations - 2)
                  (expired cfg clock (clock O)) w1) as Hs.
    destruct (search cfg D (length locations - 2) (expired cfg clock (clock O)) w1)
      as [out w2] eqn:E.
    eexists. split; [reflexivity|]. split; [|reflexivity].
    right. split; [lia|]. subst N. rewrite E. cbn [fst] in *.
    split; [reflexivity | exact Hs].
Qed.

(** C1: on at least 2 locations [optimize] returns a result, and its order
    is a permutation of all input indices that begins with index 0, the
    start, and ends with the last index, the end; no index is repeated. *)
Theorem optimize_order_permutation (cfg : Config) (clock : nat -> Q)
    (locations : list Location) :
  (2 <= length locations)%nat ->
  exists r, run cfg clock locations = inr r /\
    Permutation (order r) (seq 0 (length locations)) /\
    hd_error (order r) = Some 0%nat /\
    last (order r) 0%nat = (length locations - 1)%nat /\
    NoDup (order r).
Proof.
  intros H. destruct (run_cases cfg clock locations H) as [r [Hr [Hc _]]].
  exists r. split; [exact Hr|].
  assert (HP : Permutation (order r) (seq 0 (length locations)) /\
               hd_error (order r) = Some 0%nat /\
               last (order r) 0%nat = (length locations - 1)%nat).
  { destruct Hc as [[_ [-> _]] | [Hn [-> Hs]]].
    - split; [reflexivity|]. split.
      + destruct (length locations); [lia | reflexivity].
      + replace (length locations) with (S (length locations - 1)) at 1 by lia.
        rewrite seq_S, last_last. lia.
    - destruct (full_path_decode _ _ Hs) as [P [Hh Hl]].
      match goal with |- context [refine ?c ?D ?p] =>
        destruct (refine_keeps c D p) as [P' [Hh' [Hl' _]]] end.
      replace (length locations - 2 + 2)%nat with (length locations) in P by lia.
      split; [now rewrite P'|]. split; [now rewrite Hh'|].
      rewrite Hl', Hl. lia. }
  destruct HP as [P [Hh Hl]]. repeat split; try assumption.
  apply (Permutation_NoDup (Permutation_sym P)), seq_NoDup.
Qed.

Lemma Qlt_bool_irrefl (a : Q) : Qlt_bool a a = false.
Proof.
  destruct (Qlt_bool a a) eqn:E; [|reflexivity].
  apply Qlt_bool_iff in E. exfalso. apply (Qlt_irrefl _ E).
Qed.

(** C4: on at least 2 locations [optimize] returns a result; its total
    distance is the fitness of the returned order, and it is at most the
    fitness of the naive tour that visits the locations in input order. *)
Theorem optimize_fitness_bound (cfg : Config) (clock : nat -> Q)
    (locations : list Location) :
  (2 <= length locations)%nat ->
  let D := fst (matrix_ready cfg locations) in
  exists r, run cfg clock locations = inr r /\
    total_distance_km r = path_cost D (order r) /\
    total_distance_km r <= path_cost D (naive_path (length locations)).
Proof.
  intros H D.
  destruct (run_cases cfg clock locations H) as [r [Hr [Hc Hd]]].
  exists r. split; [exact Hr|]. split; [exact Hd|]. fold D in Hd. rewrite Hd.
  destruct Hc as [[_ [-> _]] | [Hn [-> _]]].
  - apply Qle_refl.
  - fold D.
    eapply Qle_trans; [apply refine_keeps|].
    pose proof (search_elite cfg D (length locations - 2)
                  (expired cfg clock (clock O))
                  {| rng := seed_rng (seed cfg); reads := 1 |}) as Hs.
    cbv beta in Hs.
    replace (length locations - 2 + 2)%nat with (length locations) in Hs by lia.
    exact Hs.
Qed.

(** With no deadline configured the clock is read for the compute time
    only: under two clocks the results agree on every other field. *)
Lemma clock_read_for_time_only (cfg : Config) (clock1 clock2 : nat -> Q)
    (locations : list Location) :
  deadline cfg = None ->
  erase_time (run cfg clock1 locations) = erase_time (run cfg clock2 locations).
Proof.
  intros Hd. unfold run, optimize, bind, now, expired. rewrite Hd. cbn [rng reads].
  destruct (length locations <? 2)%nat; [reflexivity|].
  destruct (length locations - 2 <=? 1)%nat; [reflexivity|].
  destruct (search cfg _ _ _ _) as [out w]. reflexivity.
Qed.

End OrchestratorFacts.

(** C1 on the five locations of the trap matrix. *)
Lemma optimize_order_permutation_witness :
  (2 <= length (Examples.places 5))%nat /\
  exists r, @run _ Examples.lcg Examples.poly Examples.trap_provider
              (Examples.config 1 2 None) Examples.tick (Examples.places 5) = inr r /\
    Permutation (order r) (seq 0 (length (Examples.places 5))) /\
    hd_error (order r) = Some 0%nat /\
    last (order r) 0%nat = (length (Examples.places 5) - 1)%nat /\
    NoDup (order r).
Proof.
  assert (H : (2 <= length (Examples.places 5))%nat) by (simpl; lia).
  split; [exact H|].
  exact (@optimize_order_permutation _ Examples.lcg Examples.poly
           Examples.trap_provider (Examples.config 1 2 None) Examples.tick
           (Examples.places 5) H).
Defined.

(** C4 on the five locations of the trap matrix. *)
Lemma optimize_fitness_bound_witness :
  (2 <= length (Examples.places 5))%nat /\
  exists r, @run _ Examples.lcg Examples.poly Examples.trap_provider
              (Examples.config 1 4 None) Examples.tick (Examples.places 5) = inr r /\
    total_distance_km r
      <= path_cost (load 1000000 Examples.trap) (naive_path 5).
Proof.
  assert (H : (2 <= length (Examples.places 5))%nat) by (simpl; lia).
  split; [exact H|].
  destruct (@optimize_fitness_bound _ Examples.lcg Examples.poly Examples.trap_provider
              (Examples.config 1 4 None) Examples.tick (Examples.places 5) H)
    as [r [Hr [_ Hb]]].
  exists r. split; [exact Hr | exact Hb].
Defined.

(** On the trap matrix the order 0,2,3,1,4 costs 7 and no single 2-opt
    move improves it, while the input order costs 4; the run with seed 1,
    a population of 4 and 4 iterations per phase returns the input
    order. *)
Example optimize_on_trap :
  let D := load 1000000 Examples.trap in
  path_cost D [0; 2; 3; 1; 4]%nat == 7 /\
  two_opt_optimal D [0; 2; 3; 1; 4]%nat /\
  exists r, @run _ Examples.lcg Examples.poly Examples.trap_provider
              (Examples.config 1 4 None) Examples.tick (Examples.places 5) = inr r /\
    order r = [0; 1; 2; 3; 4]%nat /\
    method r = hybrid /\
    total_distance_km r == 4.
Proof.
  cbv zeta. split; [vm_compute; reflexivity|].
  split; [apply first_improving_none; vm_compute; reflexivity|].
  eexists. split; [vm_compute; reflexivity|].
  split; [reflexivity|]. split; reflexivity.
Qed.

(** The same seed and the same input under two clocks give results that
    differ, in the compute time. *)
Lemma run_differs_in_time :
  @run _ Examples.lcg Examples.poly Examples.trap_provider
     (Examples.config 1 2 None) Examples.tick (Examples.places 5)
  <> @run _ Examples.lcg Examples.poly Examples.trap_provider
       (Examples.config 1 2 None) Examples.tock (Examples.places 5).
Proof.
  vm_compute. intros H. discriminate H.
Qed.

(** With a deadline the clock decides more than the compute time: under
    the faster clock the run is cancelled earlier, and the iteration
    counts record it. *)
Lemma run_with_deadline_depends_on_clock :
  erase_time (@run _ Examples.lcg Examples.poly Examples.trap_provider
                (Examples.config 1 2 (Some 3)) Examples.tick (Examples.places 5))
  <> erase_time (@run _ Examples.lcg Examples.poly Examples.trap_provider
                   (Examples.config 1 2 (Some 3)) Examples.tock (Examples.places 5)).
Proof.
  vm_compute. intros H. discriminate H.
Qed.

(** The result depends on what the routing provider answers: with the
    same seed, configuration, input and clock, the run on the provider's
    table and the run on the geometric fallback differ. *)
Lemma run_differs_with_provider :
  erase_time (@run _ Examples.lcg Examples.poly Examples.trap_provider
                (Examples.config 1 2 None) Examples.tick (Examples.places 5))
  <> erase_time (@run _ Examples.lcg Examples.poly Examples.failing_provider
                   (Examples.config 1 2 None) Examples.tick (Examples.places 5)).
Proof.
  vm_compute. intros H. discriminate H.
Qed.

(** The cap inside a whole run: 8 places on a line listed in zigzag
    order, seed 1, one candidate and a cap of 1 pass.  The returned order
    costs 11 where the input order costs 13, and it still has two pairs
    of neighbours the wrong way round: reversing the places 3 and 4
    improves it. *)
Lemma optimize_capped_not_optimal :
  let D := load 1000000 (Examples.zig_table 3) in
  exists r, @run _ Examples.lcg Examples.poly (Examples.zig_provider 3)
              (Examples.capped 1 (Examples.config 1 1 None)) Examples.tick
              (Examples.places 8) = inr r /\
    order r = [0; 2; 1; 3; 4; 5; 6; 7]%nat /\
    ~ two_opt_optimal D (order r) /\
    total_distance_km r == 11 /\
    path_cost D (naive_path 8) == 13.
Proof.
  eexists. split; [vm_compute; reflexivity|].
  split; [reflexivity|]. split; [|split; vm_compute; reflexivity].
  intros H. apply (H 2%nat 4%nat); [lia | simpl; lia | vm_compute; reflexivity].
Qed.

End CoreFacts.

(** * Properties of the remaining handlers of App.js *)

Section AppHandlersFacts.

Import App AppHandlers.

Variable Route : Type.

Lemma filterFrom_all {A : Type} (i : nat) (l : list A) :
  forall k, i < k -> JsArray.filterFrom (fun _ j => negb (j =? i)) k l = l.
Proof.
  induction l as [|x l IH]; intros k H; simpl; [reflexivity|].
  destruct (Nat.eqb_spec k i) as [E | _]; [lia|].
  simpl. now rewrite IH by lia.
Qed.

Lemma filterFrom_without {A : Type} (l : list A) :
  forall k i, k <= i ->
    JsArray.filterFrom (fun _ j => negb (j =? i)) k l = JsArray.without (i - k) l.
Proof.
  unfold JsArray.without.
  induction l as [|x l IH]; intros k i H; simpl.
  - now rewrite firstn_nil.
  - destruct (Nat.eqb_spec k i) as [-> | Hne]; simpl.
    + rewrite Nat.sub_diag. simpl. apply filterFrom_all. lia.
    + rewrite (IH (S k) i) by lia.
      replace (i - k) with (S (i - S k)) by lia. reflexivity.
Qed.

Lemma without_length {A : Type} (i : nat) (l : list A) :
  List.length (JsArray.without i l)
  = if i <? List.length l then List.length l - 1 else List.length l.
Proof.
  unfold JsArray.without. rewrite length_app, length_firstn, length_skipn.
  destruct (Nat.ltb_spec i (List.length l)); lia.
Qed.

Lemma without_beyond {A : Type} (i : nat) (l : list A) :
  List.length l <= i -> JsArray.without i l = l.
Proof.
  intros H. unfold JsArray.without.
  rewrite firstn_all2 by lia. rewrite skipn_all2 by lia. apply app_nil_r.
Qed.

Lemma without_last {A : Type} (l : list A) (x : A) :
  JsArray.without (List.length l) (l ++ [x]) = l.
Proof.
  unfold JsArray.without.
  rewrite firstn_app, Nat.sub_diag, firstn_all, firstn_O, app_nil_r.
  rewrite skipn_all2 by (rewrite length_app; simpl; lia). apply app_nil_r.
Qed.

Lemma handleRemoveWaypoint_waypoints (index : nat) (st : AppState Route) :
  waypoints (handleRemoveWaypoint index st) = JsArray.without index (waypoints st).
Proof.
  unfold handleRemoveWaypoint, JsArray.filterIndexed.
  rewrite filterFrom_without by lia. rewrite Nat.sub_0_r.
  destruct (List.length _ =? 0); reflexivity.
Qed.

(** X1: [handleRemoveWaypoint] takes out the entry at the index and
    nothing else: the entries before and after it stay, in order; an
    index past the end leaves the list as it is. *)
Theorem handleRemoveWaypoint_removes_one (index : nat) (st : AppState Route) :
  waypoints (handleRemoveWaypoint index st)
    = firstn index (waypoints st) ++ skipn (S index) (waypoints st) /\
  (index < List.length (waypoints st) ->
     S (List.length (waypoints (handleRemoveWaypoint index st)))
       = List.length (waypoints st)) /\
  (List.length (waypoints st) <= index ->
     waypoints (handleRemoveWaypoint index st) = waypoints st).
Proof.
  rewrite handleRemoveWaypoint_waypoints. split; [reflexivity|]. split.
  - intros H. rewrite without_length.
    destruct (Nat.ltb_spec index (List.length (waypoints st))); lia.
  - apply without_beyond.
Qed.

Lemma handleRemoveWaypoint_fields (index : nat) (st : AppState Route) :
  error (handleRemoveWaypoint index st) = error st /\
  isOptimizing (handleRemoveWaypoint index st) = isOptimizing st /\
  (waypoints (handleRemoveWaypoint index st) <> [] ->
     optimizedRoute (handleRemoveWaypoint index st) = optimizedRoute st) /\
  (waypoints (handleRemoveWaypoint index st) = [] ->
     optimizedRoute (handleRemoveWaypoint index st) = None).
Proof.
  assert (Hcases :
    (waypoints (handleRemoveWaypoint index st) = [] /\
     handleRemoveWaypoint index st
       = setOptimizedRoute None
           (setWaypoints (waypoints (handleRemoveWaypoint index st)) st)) \/
    (waypoints (handleRemoveWaypoint index st) <> [] /\
     handleRemoveWaypoint index st
       = setWaypoints (waypoints (handleRemoveWaypoint index st)) st)).
  { unfold handleRemoveWaypoint.
    destruct (JsArray.filterIndexed _ _) as [|x l]; simpl.
    - left. split; reflexivity.
    - right. split; [discriminate | reflexivity]. }
  split; [|split; [|split]].
  - destruct Hcases as [[_ ->] | [_ ->]]; reflexivity.
  - destruct Hcases as [[_ ->] | [_ ->]]; reflexivity.
  - intros Hne. destruct Hcases as [[E _] | [_ ->]]; [contradiction | reflexivity].
  - intros E. destruct Hcases as [[_ ->] | [Hne _]]; [reflexivity | contradiction].
Qed.

(** X2: a removal never touches the error, and it keeps the stored route
    unless the list becomes empty: a route computed for the longer list
    stays on display. *)
Theorem handleRemoveWaypoint_keeps_route (index : nat) (st : AppState Route) :
  error (handleRemoveWaypoint index st) = error st /\
  isOptimizing (handleRemoveWaypoint index st) = isOptimizing st /\
  (waypoints (handleRemoveWaypoint index st) <> [] ->
     optimizedRoute (handleRemoveWaypoint index st) = optimizedRoute st) /\
  (waypoints (handleRemoveWaypoint index st) = [] ->
     optimizedRoute (handleRemoveWaypoint index st) = None) /\
  (waypoints (handleRemoveWaypoint index st) = [] <->
     waypoints st = [] \/ (index = 0 /\ List.length (waypoints st) = 1)).
Proof.
  destruct (handleRemoveWaypoint_fields index st) as [He [Ho [Hk Hn]]].
  repeat (split; [assumption|]).
  rewrite handleRemoveWaypoint_waypoints. unfold JsArray.without.
  destruct (waypoints st) as [|w [|w' ws]]; simpl.
  - rewrite firstn_nil. simpl. tauto.
  - destruct index; simpl.
    + split; [intros _; right; split; reflexivity | reflexivity].
    + rewrite firstn_nil. simpl.
      split; [discriminate | intros [H | [H _]]; discriminate].
  - destruct index as [|[|index]]; simpl;
      (split; [discriminate | intros [H | [_ H]]; discriminate]).
Qed.

(** X3: adding an entry and then removing the last index gives back the
    list of before; the route survives unless that list is empty. *)
Theorem add_then_remove_last (w : Waypoint) (st : AppState Route) :
  let st' := handleRemoveWaypoint (List.length (waypoints st)) (handleAddWaypoint w st) in
  waypoints st' = waypoints st /\
  error st' = None /\
  (waypoints st <> [] -> optimizedRoute st' = optimizedRoute st).
Proof.
  cbv zeta.
  assert (Hw : waypoints (handleRemoveWaypoint (List.length (waypoints st))
                            (handleAddWaypoint w st)) = waypoints st).
  { rewrite handleRemoveWaypoint_waypoints. apply without_last. }
  destruct (handleRemoveWaypoint_fields (List.length (waypoints st))
              (handleAddWaypoint w st)) as [He [_ [Hr _]]].
  split; [exact Hw|]. split; [rewrite He; reflexivity|].
  intros Hne. rewrite Hr by (rewrite Hw; exact Hne). reflexivity.
Qed.

(** [handleOptimize] is [optimizeBegin], the request, then [optimizeEnd]. *)
Lemma handleOptimize_decomposed (optimizeRoute : list Payload -> Outcome Route)
    (st : AppState Route) (s d : Waypoint) :
  startPoint st = Some s -> destination st = Some d ->
  let payload :=
    map toPayload ([s] ++ filter (isType "waypoint") (waypoints st) ++ [d]) in
  handleOptimize optimizeRoute st
  = {| sent := Some payload;
       final := optimizeEnd (optimizeRoute payload) (optimizeBegin st) |}.
Proof.
  unfold startPoint, destination, handleOptimize, optimizeEnd, optimizeBegin.
  intros -> ->. reflexivity.
Qed.

(** X4: a response that arrives after Clear All still stores its route:
    the page then holds a route and no waypoint. *)
Theorem late_response_after_clear (st : AppState Route) (body : ResponseData Route) :
  success body = true ->
  let st' := optimizeEnd (Resolved (Some body))
               (handleClearWaypoints (optimizeBegin st)) in
  waypoints st' = [] /\ optimizedRoute st' = data body /\
  isOptimizing st' = false /\ error st' = None.
Proof.
  intros H. unfold optimizeEnd. rewrite H. repeat split.
Qed.

End AppHandlersFacts.

(** * Properties of WaypointManager.js *)

Section WaypointManagerFacts.

Import App AppHandlers WaypointManager.

Variable Route : Type.

Lemma findIndexFrom_some {A : Type} (f : A -> bool) (l : list A) :
  forall k a, JsArray.findIndexFrom f k l = Some a ->
    exists pre x post, l = pre ++ x :: post /\ a = k + List.length pre /\
      f x = true /\ Forall (fun y => f y = false) pre.
Proof.
  induction l as [|y l IH]; intros k a H; simpl in H; [discriminate|].
  destruct (f y) eqn:E.
  - injection H as <-. exists [], y, l.
    split; [reflexivity|]. split; [simpl; lia|]. split; [exact E | constructor].
  - destruct (IH _ _ H) as [pre [x [post [-> [-> [Hx Hpre]]]]]].
    exists (y :: pre), x, post.
    split; [reflexivity|]. split; [simpl; lia|]. split; [exact Hx | now constructor].
Qed.

Lemma findIndexFrom_none {A : Type} (f : A -> bool) (l : list A) :
  forall k, JsArray.findIndexFrom f k l = None <-> Forall (fun y => f y = false) l.
Proof.
  induction l as [|y l IH]; intros k; simpl.
  - split; [constructor | reflexivity].
  - destruct (f y) eqn:E.
    + split; [discriminate | intros H; inversion H; congruence].
    + rewrite IH. split; [now constructor | intros H; now inversion H].
Qed.

Lemma without_middle {A : Type} (pre post : list A) (x : A) :
  JsArray.without (List.length pre) (pre ++ x :: post) = pre ++ post.
Proof.
  unfold JsArray.without.
  rewrite firstn_app, Nat.sub_diag, firstn_all, firstn_O, app_nil_r.
  rewrite skipn_app, skipn_all2 by lia.
  replace (S (List.length pre) - List.length pre) with 1 by lia. reflexivity.
Qed.

Lemma find_none_filter {A : Type} (f : A -> bool) (l : list A) :
  find f l = None <-> filter f l = [].
Proof.
  induction l as [|x l IH]; simpl; [tauto|].
  destruct (f x); [split; discriminate | exact IH].
Qed.

Lemma find_skip {A : Type} (f : A -> bool) (pre post : list A) :
  Forall (fun y => f y = false) pre -> find f (pre ++ post) = find f post.
Proof.
  induction 1 as [|y pre Hy _ IH]; simpl; [reflexivity|]. now rewrite Hy.
Qed.

Lemma split_first_unique {A : Type} (f : A -> bool) (pre : list A) :
  forall x post pre' x' post',
    pre ++ x :: post = pre' ++ x' :: post' ->
    Forall (fun y => f y = false) pre -> f x = true ->
    Forall (fun y => f y = false) pre' -> f x' = true ->
    pre = pre' /\ x = x' /\ post = post'.
Proof.
  induction pre as [|y pre IH]; intros x post pre' x' post' E Hp Hx Hp' Hx'.
  - destruct pre' as [|y' pre']; simpl in E.
    + injection E as -> ->. auto.
    + injection E as -> _. inversion Hp'; subst. congruence.
  - destruct pre' as [|y' pre']; simpl in E.
    + injection E as <- _. inversion Hp; subst. congruence.
    + injection E as <- E. inversion Hp; subst. inversion Hp'; subst.
      destruct (IH _ _ _ _ _ E H2 Hx H4 Hx') as [-> [-> ->]]. auto.
Qed.

Lemma isType_false (t : string) (w : Waypoint) :
  isType t w = false <-> type w <> t.
Proof.
  unfold isType. destruct (String.eqb_spec (type w) t); split; congruence.
Qed.

(** X5: [removeByType] for the start or the destination takes out the
    first entry of that type and nothing else; when a second entry of the
    type exists, it is the one found from then on.  Without an entry of
    the type the state is left as it is. *)
Theorem removeByType_first_of_type (t : string) (st : AppState Route) :
  (forall pre x post,
     waypoints st = pre ++ x :: post -> type x = t ->
     Forall (fun y => type y <> t) pre ->
     waypoints (removeByType t None st) = pre ++ post /\
     find (isType t) (waypoints (removeByType t None st)) = find (isType t) post) /\
  ((forall w, In w (waypoints st) -> type w <> t) ->
     removeByType t None st = st).
Proof.
  assert (E : removeByType t None st
              = match JsArray.findIndex (isType t) (waypoints st) with
                | Some a => handleRemoveWaypoint a st
                | None => st
                end).
  { unfold removeByType. destruct (String.eqb t "waypoint"); reflexivity. }
  rewrite E. unfold JsArray.findIndex. split.
  - intros pre x post Hw Hx Hpre.
    assert (Hpre' : Forall (fun y => isType t y = false) pre).
    { eapply Forall_impl; [|exact Hpre]. intros y. apply isType_false. }
    destruct (JsArray.findIndexFrom (isType t) 0 (waypoints st)) as [a|] eqn:F.
    + destruct (findIndexFrom_some _ _ _ _ F)
        as [pre' [x' [post' [Hw' [-> [Hx' Hp']]]]]].
      rewrite Hw in Hw'.
      destruct (split_first_unique (isType t) _ _ _ _ _ _ Hw' Hpre'
                  (proj2 (String.eqb_eq _ _) Hx) Hp' Hx') as [<- [_ <-]].
      rewrite handleRemoveWaypoint_waypoints, Hw. simpl.
      rewrite without_middle. split; [reflexivity | now apply find_skip].
    + apply findIndexFrom_none in F. rewrite Hw in F.
      apply Forall_app in F. destruct F as [_ F]. inversion F; subst.
      unfold isType in *. rewrite String.eqb_refl in *. discriminate.
  - intros Hno.
    destruct (JsArray.findIndexFrom (isType t) 0 (waypoints st)) as [a|] eqn:F;
      [|reflexivity].
    destruct (findIndexFrom_some _ _ _ _ F) as [pre [x [post [Hw [_ [Hx _]]]]]].
    exfalso. apply (Hno x).
    + rewrite Hw. apply in_or_app. right. now left.
    + now apply String.eqb_eq.
Qed.

Lemma nth_filter_refs {A : Type} (f : A -> bool) (l : list A) :
  forall k idx a w,
    nth_error (filter (fun rw => f (snd rw)) (combine (seq k (List.length l)) l)) idx
      = Some (a, w) ->
    exists pre post, l = pre ++ w :: post /\ a = k + List.length pre /\
      List.length (filter f pre) = idx /\ f w = true.
Proof.
  induction l as [|x l IH]; intros k idx a w H; simpl in H.
  - destruct idx; discriminate.
  - destruct (f x) eqn:E; simpl in H.
    + destruct idx as [|idx]; simpl in H.
      * injection H as <- <-. exists [], l.
        split; [reflexivity|]. split; [simpl; lia|]. split; [reflexivity | exact E].
      * destruct (IH _ _ _ _ H) as [pre [post [-> [-> [Hl Hw]]]]].
        exists (x :: pre), post.
        split; [reflexivity|]. split; [simpl; lia|].
        split; [simpl; rewrite E; simpl; now rewrite Hl | exact Hw].
    + destruct (IH _ _ _ _ H) as [pre [post [-> [-> [Hl Hw]]]]].
      exists (x :: pre), post.
      split; [reflexivity|]. split; [simpl; lia|].
      split; [simpl; now rewrite E | exact Hw].
Qed.

Lemma nth_filter_refs_none {A : Type} (f : A -> bool) (l : list A) :
  forall k idx,
    nth_error (filter (fun rw => f (snd rw)) (combine (seq k (List.length l)) l)) idx
      = None ->
    List.length (filter f l) <= idx.
Proof.
  induction l as [|x l IH]; intros k idx H; simpl in *; [lia|].
  destruct (f x); simpl in *.
  - destruct idx as [|idx]; [discriminate|]. apply IH in H. lia.
  - now apply IH in H.
Qed.

Lemma findIndex_ref {A : Type} (pre post : list A) (x : A) :
  forall j k,
    JsArray.findIndexFrom (fun rw : nat * A => fst rw =? k + List.length pre) j
      (combine (seq k (List.length (pre ++ x :: post))) (pre ++ x :: post))
    = Some (j + List.length pre).
Proof.
  induction pre as [|y pre IH]; intros j k; simpl.
  - rewrite Nat.add_0_r, Nat.eqb_refl. f_equal. lia.
  - destruct (Nat.eqb_spec k (k + S (List.length pre))) as [E | _]; [lia|].
    replace (k + S (List.length pre)) with (S k + List.length pre) by lia.
    rewrite IH. f_equal. lia.
Qed.

Lemma removeByType_waypoint_cases (idx : nat) (st : AppState Route) :
  (exists pre w post,
     waypoints st = pre ++ w :: post /\
     List.length (filter (isType "waypoint") pre) = idx /\
     isType "waypoint" w = true /\
     removeByType "waypoint" (Some idx) st
       = handleRemoveWaypoint (List.length pre) st) \/
  (List.length (filter (isType "waypoint") (waypoints st)) <= idx /\
   removeByType "waypoint" (Some idx) st = st).
Proof.
  unfold removeByType. simpl String.eqb.
  destruct (nth_error _ idx) as [[a w]|] eqn:N.
  - left.
    destruct (nth_filter_refs (isType "waypoint") _ _ _ _ _ N)
      as [pre [post [Hw [-> [Hl Hfw]]]]].
    exists pre, w, post. repeat split; try assumption.
    cbn [fst]. unfold JsArray.findIndex.
    generalize (findIndex_ref pre post w 0 0). rewrite <- Hw.
    intros ->. reflexivity.
  - right. split; [|reflexivity].
    now apply nth_filter_refs_none in N.
Qed.

(** X6: [removeByType('waypoint', idx)] takes out the intermediate
    waypoint shown at row [idx], also when another entry has the same
    content: the intermediate waypoints lose exactly their entry [idx],
    every entry of another type stays, and so do the start and the
    destination in use.  An [idx] past the last row changes nothing. *)
Theorem removeByType_waypoint_row (idx : nat) (st : AppState Route) :
  let st' := removeByType "waypoint" (Some idx) st in
  filter (isType "waypoint") (waypoints st')
    = firstn idx (filter (isType "waypoint") (waypoints st))
      ++ skipn (S idx) (filter (isType "waypoint") (waypoints st)) /\
  filter (fun w => negb (isType "waypoint" w)) (waypoints st')
    = filter (fun w => negb (isType "waypoint" w)) (waypoints st) /\
  startPoint st' = startPoint st /\
  destination st' = destination st /\
  (List.length (filter (isType "waypoint") (waypoints st)) <= idx -> st' = st).
Proof.
  cbv zeta.
  destruct (removeByType_waypoint_cases idx st)
    as [[pre [w [post [Hw [Hl [Hfw ->]]]]]] | [Hle ->]].
  - unfold startPoint, destination.
    rewrite handleRemoveWaypoint_waypoints, Hw, without_middle.
    assert (Hs : forall t, t <> "waypoint" ->
              find (isType t) (pre ++ post) = find (isType t) (pre ++ w :: post)).
    { intros t Ht. clear - Hfw Ht. induction pre as [|y pre IH]; simpl.
      - unfold isType in *. apply String.eqb_eq in Hfw.
        rewrite Hfw. destruct (String.eqb_spec "waypoint" t); congruence.
      - now rewrite IH. }
    rewrite !filter_app. cbn [filter]. rewrite Hfw. cbn [negb].
    split; [rewrite <- Hl; symmetry; apply without_middle|].
    split; [reflexivity|].
    split; [apply Hs; discriminate|]. split; [apply Hs; discriminate|].
    intros Hle. rewrite length_app in Hle. simpl in Hle. lia.
  - split.
    { rewrite firstn_all2 by exact Hle. rewrite skipn_all2 by lia.
      now rewrite app_nil_r. }
    repeat split.
Qed.

Lemma removeByType_shape (t : string) (index : option nat) (st : AppState Route) :
  exists a, waypoints (removeByType t index st) = JsArray.without a (waypoints st)
            /\ isOptimizing (removeByType t index st) = isOptimizing st.
Proof.
  assert (Hst : exists a, waypoints st = JsArray.without a (waypoints st)
                          /\ isOptimizing st = isOptimizing st).
  { exists (List.length (waypoints st)).
    split; [symmetry; now apply without_beyond | reflexivity]. }
  assert (Hrm : forall a, exists a',
            waypoints (handleRemoveWaypoint a st) = JsArray.without a' (waypoints st)
            /\ isOptimizing (handleRemoveWaypoint a st) = isOptimizing st).
  { intros a. exists a. split; [apply handleRemoveWaypoint_waypoints|].
    apply handleRemoveWaypoint_fields. }
  unfold removeByType.
  destruct (String.eqb t "waypoint"), index as [idx|];
    repeat match goal with
           | |- context [match ?x with _ => _ end] => destruct x
           end; auto.
Qed.

Lemma filter_without {A : Type} (f : A -> bool) (a : nat) (l : list A) :
  List.length (filter f (JsArray.without a l)) <= List.length (filter f l) /\
  (filter f l = [] -> filter f (JsArray.without a l) = []).
Proof.
  unfold JsArray.without.
  rewrite <- (firstn_skipn a l) at 3 4.
  rewrite !filter_app, !length_app.
  destruct (skipn a l) as [|x rest] eqn:E.
  - assert (skipn (S a) l = []) as ->.
    { apply skipn_all2. apply (f_equal (@List.length A)) in E.
      rewrite length_skipn in E. simpl in E. lia. }
    simpl. split; [lia | auto].
  - assert (skipn (S a) l = rest) as ->.
    { replace (S a) with (1 + a) by lia. rewrite <- skipn_skipn, E. reflexivity. }
    simpl. destruct (f x); simpl.
    + split; [lia|]. intros H. apply app_eq_nil in H. destruct H; discriminate.
    + split; [lia | auto].
Qed.

Lemma in_without {A : Type} (a : nat) (l : list A) (x : A) :
  In x (JsArray.without a l) -> In x l.
Proof.
  revert a. induction l as [|y l IH]; intros a; unfold JsArray.without.
  - now rewrite firstn_nil.
  - destruct a as [|a]; simpl.
    + intros H. now right.
    + intros [-> | H]; [now left | right; now apply (IH a)].
Qed.

Lemma step_page_ok (u u' : Ui Route) : page_ok u -> step u u' -> page_ok u'.
Proof.
  unfold page_ok. intros [HT [HS [HD [HsS [HsD HP]]]]] st.
  assert (Hrem : forall t i,
    let ws' := waypoints (removeByType t i (app u)) in
    Forall (fun w => type w = "start" \/ type w = "destination"
                     \/ type w = "waypoint") ws' /\
    List.length (filter (isType "start") ws') <= 1 /\
    List.length (filter (isType "destination") ws') <= 1 /\
    (filter (isType "start") (waypoints (app u)) = [] ->
       filter (isType "start") ws' = []) /\
    (filter (isType "destination") (waypoints (app u)) = [] ->
       filter (isType "destination") ws' = []) /\
    isOptimizing (removeByType t i (app u)) = isOptimizing (app u)).
  { intros t i. cbv zeta.
    destruct (removeByType_shape t i (app u)) as [a [-> ->]].
    pose proof (filter_without (isType "start") a (waypoints (app u))) as [H1 H2].
    pose proof (filter_without (isType "destination") a (waypoints (app u))) as [H3 H4].
    split; [|repeat split; auto; lia].
    rewrite Forall_forall in *. intros w Hw. apply HT. eapply in_without, Hw. }
  assert (Hadd : forall w,
    waypoints (handleAddWaypoint w (app u)) = waypoints (app u) ++ [w] /\
    isOptimizing (handleAddWaypoint w (app u)) = isOptimizing (app u))
    by (intros w; split; reflexivity).
  assert (Htyped : forall w,
    type w = "start" \/ type w = "destination" \/ type w = "waypoint" ->
    Forall (fun w => type w = "start" \/ type w = "destination"
                     \/ type w = "waypoint") (waypoints (app u) ++ [w])).
  { intros w Hw. apply Forall_app. split; [exact HT | now constructor]. }
  inversion st; subst; cbn [app wm pending showStartSearch showDestSearch
    showWaypointSearch setShowStartSearch setShowDestSearch setShowWaypointSearch].
  - (* toggle_start *)
    apply find_none_filter in H. repeat split; auto.
  - (* select_start *)
    unfold handleStartSelect. destruct (Hadd (withType location "start")) as [-> ->].
    split; [apply Htyped; now left|].
    rewrite !filter_app, !length_app. simpl. rewrite (HsS H). simpl.
    rewrite ?app_nil_r. repeat split; auto; try lia; try discriminate.
  - (* remove_start *)
    destruct (Hrem "start" None) as [H0 [H1 [H2 [H3 [H4 H5]]]]].
    assert (showStartSearch (wm u) = false) as Hoff.
    { destruct (showStartSearch (wm u)); [|reflexivity].
      exfalso. apply H. apply find_none_filter. now apply HsS. }
    rewrite H5, Hoff. repeat split; auto; try discriminate.
  - (* toggle_dest *)
    apply find_none_filter in H. repeat split; auto.
  - (* select_dest *)
    unfold handleDestSelect. destruct (Hadd (withType location "destination")) as [-> ->].
    split; [apply Htyped; right; now left|].
    rewrite !filter_app, !length_app. simpl. rewrite (HsD H). simpl.
    rewrite ?app_nil_r. repeat split; auto; try lia; try discriminate.
  - (* remove_dest *)
    destruct (Hrem "destination" None) as [H0 [H1 [H2 [H3 [H4 H5]]]]].
    assert (showDestSearch (wm u) = false) as Hoff.
    { destruct (showDestSearch (wm u)); [|reflexivity].
      exfalso. apply H. apply find_none_filter. now apply HsD. }
    rewrite H5, Hoff. repeat split; auto; try discriminate.
  - (* toggle_waypoint *)
    repeat split; auto.
  - (* select_waypoint *)
    unfold handleWaypointSelect. destruct (Hadd (withType location "waypoint")) as [-> ->].
    split; [apply Htyped; right; now right|].
    rewrite !filter_app, !length_app. simpl. rewrite ?app_nil_r.
    repeat split; auto; try lia.
  - (* remove_waypoint *)
    destruct (Hrem "waypoint" (Some idx)) as [H0 [H1 [H2 [H3 [H4 H5]]]]].
    rewrite H5. repeat split; auto.
  - (* clear_all *)
    simpl. repeat split; auto.
  - (* map_click *)
    destruct (Hadd w) as [-> ->].
    split; [apply Htyped; right; now right|].
    rewrite !filter_app, !length_app. unfold isType at 2 4 6 8. simpl.
    rewrite H. simpl. rewrite ?app_nil_r. repeat split; auto; try lia.
  - (* optimize_click *)
    simpl. rewrite H0 in HP. repeat split; auto; try lia.
  - (* optimize_settles *)
    assert (isOptimizing (optimizeEnd o (app u)) = false /\
            waypoints (optimizeEnd o (app u)) = waypoints (app u)) as [-> ->].
    { unfold optimizeEnd. destruct o as [[body|]|e]; [destruct (success body)|..];
        split; reflexivity. }
    destruct (isOptimizing (app u)); repeat split; auto; try lia.
  - (* theme_toggle *)
    simpl. repeat split; auto.
  - (* health_settles *)
    simpl. repeat split; auto.
Qed.

Lemma reachable_page_ok (u : Ui Route) : reachable u -> page_ok u.
Proof.
  induction 1 as [|u u' _ IH Hstep].
  - unfold page_ok. simpl. repeat split; auto; discriminate.
  - exact (step_page_ok u u' IH Hstep).
Qed.

(** X7: on every page that the events can reach, the list holds at most
    one start-typed and at most one destination-typed entry, and a search
    box for the start (the destination) is open only while there is
    none. *)
Theorem reachable_one_start_one_destination (u : Ui Route) :
  reachable u ->
  List.length (filter (isType "start") (waypoints (app u))) <= 1 /\
  List.length (filter (isType "destination") (waypoints (app u))) <= 1 /\
  (showStartSearch (wm u) = true -> startPoint (app u) = None) /\
  (showDestSearch (wm u) = true -> destination (app u) = None).
Proof.
  intros H. destruct (reachable_page_ok u H) as [_ [HS [HD [HsS [HsD _]]]]].
  unfold startPoint, destination.
  repeat split; auto; intros E; apply find_none_filter; auto.
Qed.

(** X8: on every reachable page at most one optimize request is in
    flight, and [isOptimizing] is true exactly while one is. *)
Theorem reachable_one_request (u : Ui Route) :
  reachable u ->
  pending u <= 1 /\ (isOptimizing (app u) = true <-> pending u = 1).
Proof.
  intros H. destruct (reachable_page_ok u H) as [_ [_ [_ [_ [_ HP]]]]].
  rewrite HP. destruct (isOptimizing (app u)); split; try lia;
    split; congruence.
Qed.

(** X9: the optimize button is rendered exactly when [handleOptimize]
    sends a request, and the warning banner exactly when it would refuse:
    a click on the rendered button never yields the invalid-input
    message.  What is sent is posted by api.js as it is, and the run is
    [optimizeBegin], the request, then [optimizeEnd]. *)
Theorem optimize_button_iff_sends (optimizeRoute : list Payload -> Outcome Route)
    (st : AppState Route) :
  (optimizeButtonShown st = true <->
     exists payload, sent (handleOptimize optimizeRoute st) = Some payload) /\
  (warningShown st = true <-> sent (handleOptimize optimizeRoute st) = None) /\
  (forall payload, sent (handleOptimize optimizeRoute st) = Some payload ->
     Api.body payload = payload /\
     final (handleOptimize optimizeRoute st)
       = optimizeEnd (optimizeRoute payload) (optimizeBegin st)).
Proof.
  assert (Hbody : forall payload, Api.body payload = payload).
  { intros payload. unfold Api.body. rewrite <- map_id. apply map_ext. now intros []. }
  unfold warningShown, optimizeButtonShown.
  destruct (startPoint st) as [s|] eqn:Hs; [destruct (destination st) as [d|] eqn:Hd|].
  - rewrite (handleOptimize_decomposed _ optimizeRoute st s d Hs Hd). cbn [sent final].
    split; [split; [eauto | reflexivity]|].
    split; [split; discriminate|].
    intros payload [= <-]. split; [apply Hbody | reflexivity].
  - unfold startPoint, destination in *. unfold handleOptimize. rewrite Hs, Hd.
    cbn [sent]. split; [split; [discriminate | intros [p Hp]; discriminate]|].
    split; [tauto | discriminate].
  - unfold startPoint in *. unfold handleOptimize. rewrite Hs.
    cbn [sent]. split; [split; [discriminate | intros [p Hp]; discriminate]|].
    split; [tauto | discriminate].
Qed.

Lemma find_filter_hd {A : Type} (f : A -> bool) (l : list A) :
  find f l = hd_error (filter f l).
Proof.
  induction l as [|x l IH]; simpl; [reflexivity|]. now destruct (f x).
Qed.

Lemma filter_single {A : Type} (f : A -> bool) (l : list A) (x : A) :
  find f l = Some x -> List.length (filter f l) <= 1 -> filter f l = [x].
Proof.
  rewrite find_filter_hd. destruct (filter f l) as [|y [|z r]]; simpl;
    intros H Hl; try discriminate; [congruence | lia].
Qed.

Lemma typed_partition (ws : list Waypoint) :
  Forall (fun w => type w = "start" \/ type w = "destination"
                   \/ type w = "waypoint") ws ->
  Permutation ws (filter (isType "start") ws ++ filter (isType "waypoint") ws
                  ++ filter (isType "destination") ws).
Proof.
  induction 1 as [|w ws Hw _ IH]; [reflexivity|]. cbn [filter].
  assert (Hb : forall t, isType t w = String.eqb (type w) t) by reflexivity.
  destruct Hw as [E | [E | E]]; rewrite !Hb, E; simpl.
  - apply perm_skip. exact IH.
  - rewrite app_assoc. apply Permutation_cons_app. rewrite <- app_assoc. exact IH.
  - apply Permutation_cons_app. exact IH.
Qed.

(** X10: on every reachable page a request carries every entry of the
    list exactly once: what is sent is a rearrangement of [waypoints],
    with the start first and the destination last. *)
Theorem reachable_request_sends_every_entry (u : Ui Route)
    (optimizeRoute : list Payload -> Outcome Route) (payload : list Payload) :
  reachable u ->
  sent (handleOptimize optimizeRoute (app u)) = Some payload ->
  Permutation payload (map toPayload (waypoints (app u))) /\
  List.length payload = List.length (waypoints (app u)).
Proof.
  intros H Hsent. destruct (reachable_page_ok u H) as [HT [HS [HD _]]].
  unfold handleOptimize in Hsent.
  destruct (find (isType "start") (waypoints (app u))) as [s|] eqn:Hs;
    [|discriminate].
  destruct (find (isType "destination") (waypoints (app u))) as [d|] eqn:Hd;
    [|discriminate].
  cbn [sent] in Hsent. injection Hsent as <-.
  assert (P : Permutation ([s] ++ filter (isType "waypoint") (waypoints (app u)) ++ [d])
                          (waypoints (app u))).
  { apply Permutation_sym. eapply perm_trans; [apply (typed_partition _ HT)|].
    rewrite (filter_single _ _ _ Hs HS), (filter_single _ _ _ Hd HD). reflexivity. }
  split.
  - exact (Permutation_map toPayload P).
  - rewrite <- (length_map toPayload (waypoints (app u))).
    exact (Permutation_length (Permutation_map toPayload P)).
Qed.

End WaypointManagerFacts.

(** * Further properties of SearchBar.js *)

Section SearchBarMoreFacts.

Import SearchBar SearchBarUi.

Lemma lowerChar_idem (c : ascii) : Js.lowerChar (Js.lowerChar c) = Js.lowerChar c.
Proof. destruct c as [[] [] [] [] [] [] [] []]; reflexivity. Qed.

Lemma isWhiteSpace_lower (c : ascii) :
  Js.isWhiteSpace (Js.lowerChar c) = Js.isWhiteSpace c.
Proof. destruct c as [[] [] [] [] [] [] [] []]; reflexivity. Qed.

Lemma toLowerCase_idem (s : string) :
  Js.toLowerCase (Js.toLowerCase s) = Js.toLowerCase s.
Proof.
  induction s as [|c s IH]; simpl; [reflexivity|].
  now rewrite lowerChar_idem, IH.
Qed.

Lemma toLowerCase_app (a b : string) :
  Js.toLowerCase (a ++ b) = (Js.toLowerCase a ++ Js.toLowerCase b)%string.
Proof. induction a as [|c a IH]; simpl; [reflexivity | now rewrite IH]. Qed.

Lemma toLowerCase_length (s : string) :
  String.length (Js.toLowerCase s) = String.length s.
Proof. induction s as [|c s IH]; simpl; [reflexivity | now rewrite IH]. Qed.

Lemma trimStart_lower (s : string) :
  Js.trimStart (Js.toLowerCase s) = Js.toLowerCase (Js.trimStart s).
Proof.
  induction s as [|c s IH]; simpl; [reflexivity|].
  rewrite isWhiteSpace_lower. destruct (Js.isWhiteSpace c); [exact IH | reflexivity].
Qed.

Lemma trimEnd_lower (s : string) :
  Js.trimEnd (Js.toLowerCase s) = Js.toLowerCase (Js.trimEnd s).
Proof.
  induction s as [|c s IH]; simpl; [reflexivity|].
  rewrite IH, isWhiteSpace_lower.
  destruct (Js.trimEnd s); simpl; [destruct (Js.isWhiteSpace c)|]; reflexivity.
Qed.

Lemma trim_lower_length (s : string) :
  String.length (Js.trim (Js.toLowerCase s)) = String.length (Js.trim s).
Proof.
  unfold Js.trim. now rewrite trimStart_lower, trimEnd_lower, toLowerCase_length.
Qed.

Lemma append_assoc (a b c : string) : ((a ++ b) ++ c = a ++ (b ++ c))%string.
Proof. induction a as [|x a IH]; simpl; [reflexivity | now rewrite IH]. Qed.

Lemma contains_trans (s t u : string) :
  Js.contains s t -> Js.contains t u -> Js.contains s u.
Proof.
  intros [a [b ->]] [a' [b' ->]].
  exists (a ++ a')%string, (b' ++ b)%string.
  now rewrite !append_assoc.
Qed.

Lemma contains_lower (s t : string) :
  Js.contains s t -> Js.contains (Js.toLowerCase s) (Js.toLowerCase t).
Proof.
  intros [a [b ->]]. exists (Js.toLowerCase a), (Js.toLowerCase b).
  now rewrite !toLowerCase_app.
Qed.

(** The two facts of [searchEffect] that the proofs below need; the city
    table stays folded. *)
Lemma searchEffect_fields (term : string) :
  searchTerm (searchEffect term) = term /\
  showResults (searchEffect term) = (2 <=? String.length (Js.trim term)) /\
  filteredCities (searchEffect term)
    = if 2 <=? String.length (Js.trim term)
      then firstn 8 (filter (cityMatches term) INDIAN_CITIES) else [].
Proof.
  unfold searchEffect, Js.slice0.
  destruct (2 <=? String.length (Js.trim term)); repeat split.
Qed.

(** X11: the search is insensitive to case: two terms with the same
    lower-case form show the same cities. *)
Theorem search_case_insensitive (t1 t2 : string) :
  Js.toLowerCase t1 = Js.toLowerCase t2 ->
  shownResults (searchEffect t1) = shownResults (searchEffect t2).
Proof.
  intros H. rewrite !shown_is_filtered.
  destruct (searchEffect_fields t1) as [_ [_ ->]].
  destruct (searchEffect_fields t2) as [_ [_ ->]].
  rewrite <- (trim_lower_length t1), <- (trim_lower_length t2), H.
  destruct (2 <=? _); [|reflexivity].
  f_equal. apply filter_ext. intros c. unfold cityMatches. now rewrite H.
Qed.

(** X12: a longer term never brings in a city that the shorter term does
    not match: when [t] occurs in [t'], every city shown for [t'] matches
    [t]. *)
Theorem search_narrows (t t' : string) :
  Js.contains t' t ->
  (forall c, cityMatches t' c = true -> cityMatches t c = true) /\
  (forall c, In c (shownResults (searchEffect t')) ->
     In c (filter (cityMatches t) INDIAN_CITIES)).
Proof.
  intros H.
  assert (Hm : forall c, cityMatches t' c = true -> cityMatches t c = true).
  { intros c Hc. apply cityMatches_spec in Hc. apply cityMatches_spec.
    apply contains_lower in H.
    destruct Hc as [Hc | Hc]; [left | right]; eapply contains_trans; eassumption. }
  split; [exact Hm|].
  intros c. rewrite shown_is_filtered.
  destruct (searchEffect_fields t') as [_ [_ ->]].
  destruct (2 <=? _); [|intros []].
  intros Hc. apply In_firstn_filter in Hc. destruct Hc as [Hin Hc].
  apply filter_In. split; [exact Hin | now apply Hm].
Qed.

Lemma step_search_ok (st st' : SearchState) :
  search_ok st -> step st st' -> search_ok st'.
Proof.
  unfold search_ok. intros [Hf Hs] Hstep.
  assert (Heff : forall v,
    filteredCities (searchEffect v)
      = filteredCities (searchEffect (searchTerm (searchEffect v))) /\
    (showResults (searchEffect v) = true ->
       2 <= String.length (Js.trim (searchTerm (searchEffect v))))).
  { intros v. destruct (searchEffect_fields v) as [-> [-> _]].
    split; [reflexivity | apply Nat.leb_le]. }
  inversion Hstep; subst; unfold onChange, resetSearch, runEffect,
    handleSearchFocus, handleClickOutside.
  - cbn [searchTerm setSearchTerm].
    destruct (String.eqb_spec (searchTerm st) v) as [<- | _]; [|apply Heff].
    cbn [searchTerm filteredCities showResults setSearchTerm]. now split.
  - destruct (Nat.leb_spec 2 (String.length (Js.trim (searchTerm st))));
      [|now split].
    cbn [searchTerm filteredCities showResults setShowResults]. now split.
  - cbn [searchTerm filteredCities showResults setShowResults].
    split; [exact Hf | discriminate].
  - cbn [searchTerm setSearchTerm setShowResults].
    destruct (String.eqb_spec (searchTerm st) "") as [E | _]; [|apply Heff].
    cbn [searchTerm filteredCities showResults setSearchTerm setShowResults].
    rewrite <- E. split; [exact Hf | discriminate].
  - cbn [searchTerm setSearchTerm setShowResults].
    destruct (String.eqb_spec (searchTerm st) "") as [E | _]; [|apply Heff].
    cbn [searchTerm filteredCities showResults setSearchTerm setShowResults].
    rewrite <- E. split; [exact Hf | discriminate].
Qed.

Lemma reachable_search_ok (st : SearchState) : reachable st -> search_ok st.
Proof.
  induction 1 as [|st st' _ IH Hstep].
  - unfold search_ok. split; [|discriminate].
    destruct (searchEffect_fields (searchTerm mounted)) as [_ [_ ->]]. reflexivity.
  - exact (step_search_ok st st' IH Hstep).
Qed.

(** X13: whatever the user types, focuses, clicks or picks, the rows on
    display are cities of the table that match the text that is in the box
    at that moment, at most 8 of them, and none while the trimmed text is
    shorter than 2. *)
Theorem reachable_rows_match_text (st : SearchState) :
  reachable st ->
  (forall c, In c (shownResults st) ->
     In c INDIAN_CITIES /\ matchesTerm (searchTerm st) c) /\
  List.length (shownResults st) <= 8 /\
  (String.length (Js.trim (searchTerm st)) < 2 -> shownResults st = []).
Proof.
  intros H. destruct (reachable_search_ok st H) as [Hf Hs].
  destruct (searchEffect_fields (searchTerm st)) as [_ [_ Hff]].
  rewrite Hff in Hf.
  assert (Hshown : shownResults st = [] \/ (showResults st = true /\
                     shownResults st = filteredCities st)).
  { unfold shownResults. destruct (showResults st); [|now left].
    right. split; [reflexivity|]. destruct (filteredCities st); reflexivity. }
  split; [|split].
  - intros c Hc. destruct Hshown as [E | [Hon E]]; [rewrite E in Hc; destruct Hc|].
    rewrite E, Hf in Hc.
    destruct (2 <=? _); [|destruct Hc].
    apply In_firstn_filter in Hc. destruct Hc as [Hin Hc].
    split; [exact Hin | now apply cityMatches_spec].
  - destruct Hshown as [-> | [_ ->]]; [simpl; lia|].
    rewrite Hf. destruct (2 <=? _); [apply firstn_le_length | simpl; lia].
  - intros Hlt. destruct Hshown as [E | [Hon _]]; [exact E|].
    apply Hs in Hon. lia.
Qed.

End SearchBarMoreFacts.

(** * Properties of MapView.js *)

Section MapViewFacts.

Import App AppHandlers MapView.

Lemma key_eqb_eq (a b : RouteKey) : key_eqb a b = true <-> a = b.
Proof.
  destruct a as [i|], b as [j|]; simpl; try (split; [discriminate | congruence]).
  - rewrite Nat.eqb_eq. split; congruence.
  - tauto.
Qed.

Lemma key_eqb_refl (a : RouteKey) : key_eqb a a = true.
Proof. now apply key_eqb_eq. Qed.

Lemma key_eqb_sym (a b : RouteKey) : key_eqb a b = key_eqb b a.
Proof.
  destruct (key_eqb a b) eqn:E, (key_eqb b a) eqn:E'; try reflexivity.
  - apply key_eqb_eq in E. subst. rewrite key_eqb_refl in E'. discriminate.
  - apply key_eqb_eq in E'. subst. rewrite key_eqb_refl in E. discriminate.
Qed.

Lemma has_in (k : RouteKey) (s : KeySet) : has k s = true <-> In k s.
Proof.
  unfold has. rewrite existsb_exists. split.
  - intros [x [Hx E]]. apply key_eqb_eq in E. now subst.
  - intros H. exists k. split; [exact H | apply key_eqb_refl].
Qed.

Lemma has_delete (k k' : RouteKey) (s : KeySet) :
  has k' (delete k s) = has k' s && negb (key_eqb k' k).
Proof.
  unfold has, delete. induction s as [|x s IH]; simpl; [reflexivity|].
  destruct (key_eqb k x) eqn:E; simpl.
  - apply key_eqb_eq in E. subst x. rewrite IH.
    destruct (key_eqb k' k); simpl; [now rewrite !andb_false_r | reflexivity].
  - rewrite IH. destruct (key_eqb k' x) eqn:E'; simpl; [|reflexivity].
    apply key_eqb_eq in E'. subst x. rewrite key_eqb_sym, E. reflexivity.
Qed.

Lemma has_app (k : RouteKey) (s s' : KeySet) : has k (s ++ s') = has k s || has k s'.
Proof. unfold has. apply existsb_app. Qed.

Lemma delete_absent (k : RouteKey) (s : KeySet) : has k s = false -> delete k s = s.
Proof.
  unfold has, delete. induction s as [|x s IH]; simpl; [reflexivity|].
  intros H. apply orb_false_iff in H. destruct H as [H1 H2].
  rewrite H1. simpl. now rewrite IH.
Qed.

Lemma delete_length (k : RouteKey) (s : KeySet) :
  NoDup s -> has k s = true -> S (size (delete k s)) = size s.
Proof.
  unfold size. induction 1 as [|x s Hx Hs IH]; simpl; [discriminate|].
  destruct (key_eqb k x) eqn:E; simpl.
  - intros _. apply key_eqb_eq in E. subst x.
    rewrite delete_absent; [reflexivity|].
    destruct (has k s) eqn:Hk; [|reflexivity]. apply has_in in Hk. contradiction.
  - intros H. now rewrite IH.
Qed.

Lemma built_NoDup (s : KeySet) : built s -> NoDup s.
Proof.
  induction 1 as [|s k _ IH]; [constructor|].
  unfold toggleRouteVisibility, add. destruct (has k s) eqn:E.
  - unfold delete. now apply NoDup_filter.
  - apply NoDup_app; [exact IH | constructor; [intros [] | constructor] |].
    intros x Hx [<- | []]. apply has_in in Hx. congruence.
Qed.

(** X14: clicking the same legend row twice gives back the selection of
    before: the same members and the same size. *)
Theorem toggle_twice (s : KeySet) (k : RouteKey) :
  built s ->
  let s' := toggleRouteVisibility k (toggleRouteVisibility k s) in
  (forall k', has k' s' = has k' s) /\ size s' = size s /\
  (forall k', shouldShowRoute s' k' = shouldShowRoute s k').
Proof.
  intros B. apply built_NoDup in B. cbv zeta.
  assert (H : (forall k', has k' (toggleRouteVisibility k (toggleRouteVisibility k s))
                          = has k' s)
              /\ size (toggleRouteVisibility k (toggleRouteVisibility k s)) = size s).
  { destruct (has k s) eqn:E.
    - assert (Hd : has k (delete k s) = false)
        by (now rewrite has_delete, key_eqb_refl, andb_false_r).
      unfold toggleRouteVisibility, add. rewrite !E, !Hd.
      split.
      + intros k'. rewrite has_app, has_delete. simpl. rewrite orb_false_r.
        destruct (key_eqb k' k) eqn:E'.
        * apply key_eqb_eq in E'. subst. now rewrite E, orb_true_r.
        * now rewrite andb_true_r, orb_false_r.
      + unfold size. rewrite length_app. simpl.
        pose proof (delete_length k s B E). unfold size in *. lia.
    - unfold toggleRouteVisibility, add. rewrite !E.
      rewrite has_app. simpl. rewrite key_eqb_refl, orb_true_r.
      assert (delete k (s ++ [k]) = s) as ->; [|split; reflexivity].
      unfold delete. rewrite filter_app. simpl. rewrite key_eqb_refl. simpl.
      rewrite app_nil_r. now apply delete_absent. }
  destruct H as [H1 H2]. split; [exact H1|]. split; [exact H2|].
  intros k'. unfold shouldShowRoute. now rewrite H1, H2.
Qed.

(** X15: which routes are drawn after a click on the legend row [k].
    Selecting [k] draws it, and with it only the routes already selected;
    unselecting the only selected route draws every route again;
    unselecting one of several hides it. *)
Theorem visible_after_toggle (s : KeySet) (k k' : RouteKey) :
  built s ->
  shouldShowRoute (toggleRouteVisibility k s) k'
  = if has k s
    then (if size s =? 1 then true else has k' s && negb (key_eqb k' k))
    else key_eqb k' k || has k' s.
Proof.
  intros B. apply built_NoDup in B.
  unfold shouldShowRoute, toggleRouteVisibility.
  destruct (has k s) eqn:E.
  - pose proof (delete_length k s B E) as Hl.
    destruct (Nat.eqb_spec (size s) 1) as [H1 | H1].
    + destruct (Nat.eqb_spec (size (delete k s)) 0); [reflexivity | lia].
    + destruct (Nat.eqb_spec (size (delete k s)) 0); [lia|]. apply has_delete.
  - unfold add. rewrite E. unfold size. rewrite length_app. simpl.
    destruct (Nat.eqb_spec (List.length s + 1) 0); [lia|].
    rewrite has_app. simpl. rewrite orb_false_r. apply orb_comm.
Qed.

Lemma at_none {A : Type} (l : list A) (i : Z) :
  JsArray.at_ l i = None <-> (i < 0 \/ Z.of_nat (List.length l) <= i)%Z.
Proof.
  unfold JsArray.at_. destruct (Z.ltb_spec i 0) as [H | H].
  - split; [intros _; now left | reflexivity].
  - rewrite nth_error_None. lia.
Qed.

(** The fallback branch of [getRoutePolyline], on the indices [order]. *)
Lemma polyline_fallback (ws : list Waypoint) (order : list Z) :
  let walk := fold_right
                (fun idx rest =>
                   match JsArray.at_ ws idx, rest with
                   | Some w, Some ps => Some ((lat w, lng w) :: ps)
                   | _, _ => None
                   end) (Some []) order in
  (walk = None <->
     exists idx, In idx order /\ (idx < 0 \/ Z.of_nat (List.length ws) <= idx)%Z) /\
  (forall ps, walk = Some ps ->
     Forall2 (fun idx p => exists w, JsArray.at_ ws idx = Some w /\ p = (lat w, lng w))
             order ps).
Proof.
  cbv zeta. induction order as [|idx order [IH1 IH2]]; simpl.
  - split.
    + split; [discriminate | intros [idx [[] _]]].
    + intros ps [= <-]. constructor.
  - destruct (JsArray.at_ ws idx) as [w|] eqn:E.
    + destruct (fold_right _ _ order) as [ps'|] eqn:F.
      * split.
        { split; [discriminate|]. intros [i [[<- | Hi] Hr]].
          - apply at_none in Hr. congruence.
          - assert (@None (list LatLng) = None) by reflexivity.
            destruct IH1 as [_ IH1]. discriminate IH1. eauto. }
        { intros ps [= <-]. constructor; [eauto | now apply IH2]. }
      * split; [|discriminate].
        split; [|reflexivity]. intros _.
        destruct IH1 as [IH1 _]. destruct (IH1 eq_refl) as [i [Hi Hr]]. eauto.
    + split; [|discriminate].
      split; [|reflexivity]. intros _. exists idx. split; [now left|].
      now apply at_none.
Qed.

(** X16: the polyline is the geometry of the route when it has one; if
    not, it is the list of the coordinates of [waypoints] at the indices
    of [optimized_order], one point per index, and the computation throws
    exactly when one of these indices is not an index of [waypoints]. *)
Theorem getRoutePolyline_cases (r : RouteData) (ws : list Waypoint) :
  (forall p g, route_geometry r = Some (p :: g) ->
     getRoutePolyline (Some r) ws = Some (p :: g)) /\
  (route_geometry r = None \/ route_geometry r = Some [] ->
   forall order, optimized_order r = Some order ->
     (getRoutePolyline (Some r) ws = None <->
        exists idx, In idx order /\
          (idx < 0 \/ Z.of_nat (List.length ws) <= idx)%Z) /\
     (forall ps, getRoutePolyline (Some r) ws = Some ps ->
        List.length ps = List.length order /\
        Forall2 (fun idx p =>
                   exists w, JsArray.at_ ws idx = Some w /\ p = (lat w, lng w))
                order ps)).
Proof.
  unfold getRoutePolyline. split.
  - intros p g ->. reflexivity.
  - intros Hg order ->.
    destruct (polyline_fallback ws order) as [H1 H2].
    destruct Hg as [-> | ->]; (split; [exact H1|]);
      intros ps Hps; (split; [|now apply H2]);
      symmetry; eapply Forall2_length; now apply H2.
Qed.

(** X17: a removal that leaves the list non-empty keeps the stored route;
    when that route has no geometry and its order mentions the last index
    of the old list, the polyline of the next render throws. *)
Theorem polyline_throws_after_removal (index : nat) (st : AppState RouteData)
    (r : RouteData) (order : list Z) :
  optimizedRoute st = Some r ->
  route_geometry r = None \/ route_geometry r = Some [] ->
  optimized_order r = Some order ->
  In (Z.of_nat (List.length (waypoints st) - 1)) order ->
  2 <= List.length (waypoints st) ->
  index < List.length (waypoints st) ->
  let st' := handleRemoveWaypoint index st in
  optimizedRoute st' = Some r /\
  getRoutePolyline (optimizedRoute st') (waypoints st') = None.
Proof.
  intros Hr Hg Ho Hin Hlen Hidx. cbv zeta.
  assert (Hl : S (List.length (waypoints (handleRemoveWaypoint index st)))
               = List.length (waypoints st)).
  { rewrite handleRemoveWaypoint_waypoints, without_length.
    destruct (Nat.ltb_spec index (List.length (waypoints st))); lia. }
  destruct (handleRemoveWaypoint_fields _ index st) as [_ [_ [Hk _]]].
  assert (Hne : waypoints (handleRemoveWaypoint index st) <> []).
  { intros E. rewrite E in Hl. simpl in Hl. lia. }
  rewrite (Hk Hne), Hr. split; [reflexivity|].
  assert (H : getRoutePolyline (Some r) (waypoints (handleRemoveWaypoint index st))
              = fold_right
                  (fun idx rest =>
                     match JsArray.at_ (waypoints (handleRemoveWaypoint index st)) idx,
                           rest with
                     | Some w, Some ps => Some ((lat w, lng w) :: ps)
                     | _, _ => None
                     end) (Some []) order).
  { unfold getRoutePolyline. rewrite Ho. destruct Hg as [-> | ->]; reflexivity. }
  rewrite H.
  apply (proj1 (polyline_fallback (waypoints (handleRemoveWaypoint index st)) order)).
  exists (Z.of_nat (List.length (waypoints st) - 1)).
  split; [exact Hin | lia].
Qed.

Lemma findIndex_first (x : Z) (order : list Z) :
  In x order ->
  exists pre post, order = pre ++ x :: post /\ ~ In x pre /\
    JsArray.indexOf x order = Z.of_nat (List.length pre).
Proof.
  intros Hin. unfold JsArray.indexOf, JsArray.findIndex.
  destruct (JsArray.findIndexFrom (Z.eqb x) 0 order) as [a|] eqn:F.
  - destruct (findIndexFrom_some _ _ _ _ F) as [pre [y [post [-> [-> [Hy Hpre]]]]]].
    apply Z.eqb_eq in Hy. subst y. exists pre, post.
    split; [reflexivity|]. split; [|reflexivity].
    intros Hx. rewrite Forall_forall in Hpre. apply Hpre in Hx.
    rewrite Z.eqb_refl in Hx. discriminate.
  - apply findIndexFrom_none in F. rewrite Forall_forall in F.
    apply F in Hin. rewrite Z.eqb_refl in Hin. discriminate.
Qed.

(** X18: with an order that is a permutation of all the indices, as the
    optimizer returns it, the start icon is on the waypoint whose index is
    first in the order and the end icon on the one whose index is last;
    every other marker has the waypoint icon. *)
Theorem marker_icons_follow_order (r : RouteData) (order : list Z) (n i : nat) :
  optimized_order r = Some order ->
  Permutation order (map Z.of_nat (seq 0 n)) ->
  2 <= n -> i < n ->
  (markerIcon (Some r) n i = startIcon <-> nth_error order 0 = Some (Z.of_nat i)) /\
  (markerIcon (Some r) n i = endIcon <-> nth_error order (n - 1) = Some (Z.of_nat i)).
Proof.
  intros Ho P Hn Hi. unfold markerIcon. rewrite Ho.
  assert (Hin : In (Z.of_nat i) order).
  { apply (Permutation_in _ (Permutation_sym P)). apply in_map, in_seq. lia. }
  assert (Hnd : NoDup order).
  { apply (Permutation_NoDup (Permutation_sym P)).
    apply Finite.Injective_map_NoDup; [intros a b; apply Nat2Z.inj | apply seq_NoDup]. }
  assert (Hlen : List.length order = n).
  { rewrite (Permutation_length P), length_map. apply length_seq. }
  destruct (findIndex_first _ _ Hin) as [pre [post [E [Hpre ->]]]].
  assert (Hnth : forall m, nth_error order m = Some (Z.of_nat i) <-> m = List.length pre).
  { intros m. split.
    - intros Hm.
      assert (Hp : nth_error order (List.length pre) = Some (Z.of_nat i)).
      { rewrite E, nth_error_app2, Nat.sub_diag by lia. reflexivity. }
      apply (proj1 (NoDup_nth_error order) Hnd m (List.length pre)).
      + apply nth_error_Some. congruence.
      + congruence.
    - intros ->. rewrite E, nth_error_app2, Nat.sub_diag by lia. reflexivity. }
  rewrite !Hnth. unfold getMarkerIcon.
  destruct (Z.eqb_spec (Z.of_nat (List.length pre)) 0) as [H0 | H0].
  - split; [split; [lia | reflexivity]|]. split; [discriminate | lia].
  - destruct (Z.eqb_spec (Z.of_nat (List.length pre)) (Z.of_nat n - 1)) as [H1 | H1].
    + split; [split; [discriminate | lia]|]. split; [lia | reflexivity].
    + split; (split; [discriminate | lia]).
Qed.

End MapViewFacts.

(** * How the components fit together *)

Section CompositionFacts.

Import App AppHandlers.

Variable Route : Type.

(** X19: when the start was added first, the destination last, and
    waypoints only in between, the list sent to the back end is the
    [waypoints] list entry by entry, and api.js posts it unchanged: an
    index of the returned order then names the same location in the back
    end, in the Dashboard and on the map. *)
Theorem payload_follows_list (optimizeRoute : list Payload -> Outcome Route)
    (st : AppState Route) (s d : Waypoint) (mids : list Waypoint) :
  waypoints st = s :: mids ++ [d] ->
  type s = "start" -> type d = "destination" ->
  Forall (fun w => type w = "waypoint") mids ->
  sent (handleOptimize optimizeRoute st) = Some (map toPayload (waypoints st)) /\
  Api.body (map toPayload (waypoints st)) = map toPayload (waypoints st).
Proof.
  intros Hw Hs Hd Hm. split.
  - assert (Hts : forall t, isType t s = String.eqb "start" t)
      by (intros t; unfold isType; now rewrite Hs).
    assert (Htd : forall t, isType t d = String.eqb "destination" t)
      by (intros t; unfold isType; now rewrite Hd).
    assert (Htm : forall t, Forall (fun w => isType t w = String.eqb "waypoint" t) mids).
    { intros t. eapply Forall_impl; [|exact Hm].
      intros w Ht. unfold isType. now rewrite Ht. }
    assert (Hfs : find (isType "start") (s :: mids ++ [d]) = Some s).
    { simpl. now rewrite Hts. }
    assert (Hfd : find (isType "destination") (s :: mids ++ [d]) = Some d).
    { simpl. rewrite Hts. simpl. rewrite find_skip; [simpl; now rewrite Htd|].
      exact (Htm "destination"). }
    assert (Hfw : filter (isType "waypoint") (s :: mids ++ [d]) = mids).
    { simpl. rewrite Hts. simpl. rewrite filter_app. simpl. rewrite Htd. simpl.
      rewrite app_nil_r. pose proof (Htm "waypoint") as H. clear - H.
      induction H as [|w mids Hw _ IH]; simpl; [reflexivity|].
      rewrite Hw. simpl. now rewrite IH. }
    unfold handleOptimize. rewrite Hw, Hfs, Hfd, Hfw. reflexivity.
  - unfold Api.body. rewrite <- map_id. apply map_ext. now intros [].
Qed.

(** X20: a waypoint added through [handleWaypointSelect] is sent just
    before the destination, after the waypoints added earlier; the start
    and the destination of the request stay the same. *)
Theorem waypoint_sent_before_destination
    (f f' : list Payload -> Outcome Route) (st : AppState Route)
    (s d : Waypoint) (location : SearchBar.Location) :
  startPoint st = Some s -> destination st = Some d ->
  exists front,
    sent (handleOptimize f st) = Some (front ++ [toPayload d]) /\
    sent (handleOptimize f' (handleWaypointSelect location st))
      = Some (front ++ [toPayload (withType location "waypoint")] ++ [toPayload d]).
Proof.
  unfold startPoint, destination. intros Hs Hd.
  exists (toPayload s :: map toPayload (filter (isType "waypoint") (waypoints st))).
  unfold handleOptimize, handleWaypointSelect, handleAddWaypoint.
  cbn [waypoints setWaypoints setError].
  rewrite (find_app_first _ _ [withType location "waypoint"] _ Hs).
  rewrite (find_app_first _ _ [withType location "waypoint"] _ Hd).
  rewrite Hs, Hd. cbn [sent]. split.
  - f_equal. simpl. now rewrite map_app.
  - f_equal. simpl. rewrite filter_app. simpl. rewrite !map_app. simpl.
    now rewrite <- app_assoc.
Qed.

End CompositionFacts.

(** * The properties above on concrete pages *)

Section Instances.

Import App AppHandlers WaypointManager Pages.

Lemma page7_reachable : reachable page7.
Proof.
  apply (reach_step unit page6); [|exact (optimize_click unit page6 eq_refl eq_refl)].
  apply (reach_step unit page5); [|exact (select_waypoint unit page5 kochi eq_refl)].
  apply (reach_step unit page4); [|exact (toggle_waypoint unit page4)].
  apply (reach_step unit page3); [|exact (select_dest unit page3 salem eq_refl)].
  apply (reach_step unit page2); [|exact (toggle_dest unit page2 eq_refl)].
  apply (reach_step unit page1); [|exact (select_start unit page1 pune eq_refl)].
  apply (reach_step unit page0); [|exact (toggle_start unit page0 eq_refl)].
  exact (reach_startup unit).
Defined.

Lemma late_response_after_clear_witness :
  let body := {| success := true; data := Some tt; r_error := None |} in
  success body = true /\
  optimizedRoute (optimizeEnd (Resolved (Some body))
                    (handleClearWaypoints (optimizeBegin (app page6)))) = Some tt.
Proof.
  intros body. split; [reflexivity|].
  exact (proj1 (proj2 (late_response_after_clear unit (app page6) body eq_refl))).
Defined.

Lemma reachable_one_start_one_destination_witness :
  reachable page7 /\
  List.length (filter (isType "start") (waypoints (app page7))) <= 1.
Proof.
  split; [exact page7_reachable|].
  exact (proj1 (reachable_one_start_one_destination unit page7 page7_reachable)).
Defined.

Lemma reachable_one_request_witness :
  reachable page7 /\ pending page7 <= 1.
Proof.
  split; [exact page7_reachable|].
  exact (proj1 (reachable_one_request unit page7 page7_reachable)).
Defined.

Lemma page6_reachable : reachable page6.
Proof.
  apply (reach_step unit page5); [|exact (select_waypoint unit page5 kochi eq_refl)].
  apply (reach_step unit page4); [|exact (toggle_waypoint unit page4)].
  apply (reach_step unit page3); [|exact (select_dest unit page3 salem eq_refl)].
  apply (reach_step unit page2); [|exact (toggle_dest unit page2 eq_refl)].
  apply (reach_step unit page1); [|exact (select_start unit page1 pune eq_refl)].
  apply (reach_step unit page0); [|exact (toggle_start unit page0 eq_refl)].
  exact (reach_startup unit).
Defined.

Lemma reachable_request_sends_every_entry_witness :
  exists payload,
    reachable page6 /\
    sent (handleOptimize (answers tt) (app page6)) = Some payload /\
    Permutation payload (map toPayload (waypoints (app page6))).
Proof.
  eexists. split; [exact page6_reachable|].
  assert (E : sent (handleOptimize (answers tt) (app page6))
              = Some (map toPayload
                        [withType pune "start"; withType kochi "waypoint";
                         withType salem "destination"])) by reflexivity.
  split; [exact E|].
  exact (proj1 (reachable_request_sends_every_entry unit page6 (answers tt) _
                  page6_reachable E)).
Defined.

Lemma search_case_insensitive_witness :
  Js.toLowerCase "PU" = Js.toLowerCase "pu" /\
  SearchBar.shownResults (SearchBar.searchEffect "PU")
  = SearchBar.shownResults (SearchBar.searchEffect "pu").
Proof.
  split; [reflexivity|].
  exact (search_case_insensitive "PU" "pu" eq_refl).
Defined.

Lemma search_narrows_witness :
  Js.contains "pun" "pu" /\
  forall c, SearchBar.cityMatches "pun" c = true -> SearchBar.cityMatches "pu" c = true.
Proof.
  assert (H : Js.contains "pun" "pu") by (exists "", "n"; reflexivity).
  split; [exact H|].
  exact (proj1 (search_narrows "pu" "pun" H)).
Defined.

Lemma reachable_rows_match_text_witness :
  SearchBarUi.reachable (SearchBarUi.onChange "pu" SearchBarUi.mounted) /\
  List.length (SearchBar.shownResults (SearchBarUi.onChange "pu" SearchBarUi.mounted)) <= 8.
Proof.
  assert (R : SearchBarUi.reachable (SearchBarUi.onChange "pu" SearchBarUi.mounted)).
  { apply (SearchBarUi.reach_step SearchBarUi.mounted);
      [apply SearchBarUi.reach_mounted | apply SearchBarUi.type_text]. }
  split; [exact R|].
  exact (proj1 (proj2 (reachable_rows_match_text _ R))).
Defined.

Lemma toggle_twice_witness :
  MapView.built (MapView.toggleRouteVisibility MapView.Best []) /\
  MapView.size (MapView.toggleRouteVisibility (MapView.Alt 1)
                  (MapView.toggleRouteVisibility (MapView.Alt 1)
                     (MapView.toggleRouteVisibility MapView.Best [])))
  = MapView.size (MapView.toggleRouteVisibility MapView.Best []).
Proof.
  assert (B : MapView.built (MapView.toggleRouteVisibility MapView.Best []))
    by (apply MapView.built_toggle, MapView.built_empty).
  split; [exact B|].
  exact (proj1 (proj2 (toggle_twice _ (MapView.Alt 1) B))).
Defined.

Lemma visible_after_toggle_witness :
  MapView.built (MapView.toggleRouteVisibility MapView.Best []) /\
  MapView.shouldShowRoute
    (MapView.toggleRouteVisibility MapView.Best
       (MapView.toggleRouteVisibility MapView.Best []))
    (MapView.Alt 0) = true.
Proof.
  assert (B : MapView.built (MapView.toggleRouteVisibility MapView.Best []))
    by (apply MapView.built_toggle, MapView.built_empty).
  split; [exact B|].
  exact (visible_after_toggle _ MapView.Best (MapView.Alt 0) B).
Defined.

Lemma polyline_throws_after_removal_witness :
  MapView.getRoutePolyline (optimizedRoute shown_page) (waypoints shown_page) <> None /\
  MapView.getRoutePolyline
    (optimizedRoute (handleRemoveWaypoint 2 shown_page))
    (waypoints (handleRemoveWaypoint 2 shown_page)) = None.
Proof.
  split; [discriminate|].
  refine (proj2 (polyline_throws_after_removal 2 shown_page plain_route [0; 2; 1]%Z
                   eq_refl (or_introl eq_refl) eq_refl _ _ _)).
  - simpl. tauto.
  - simpl. lia.
  - simpl. lia.
Defined.

Lemma marker_icons_follow_order_witness :
  MapView.markerIcon (Some plain_route) 3 2 = MapView.waypointIcon /\
  (MapView.markerIcon (Some plain_route) 3 1 = MapView.endIcon <->
     nth_error [0; 2; 1]%Z (3 - 1) = Some (Z.of_nat 1)).
Proof.
  split; [reflexivity|].
  refine (proj2 (marker_icons_follow_order plain_route [0; 2; 1]%Z 3 1 eq_refl _ _ _)).
  - simpl. apply perm_skip. apply perm_swap.
  - lia.
  - lia.
Defined.

Lemma payload_follows_list_witness :
  sent (handleOptimize (answers tt) ordered_page)
  = Some (map toPayload (waypoints ordered_page)).
Proof.
  refine (proj1 (payload_follows_list unit (answers tt) ordered_page
                   (withType pune "start") (withType salem "destination")
                   [withType kochi "waypoint"] eq_refl eq_refl eq_refl _)).
  constructor; [reflexivity | constructor].
Defined.

Lemma waypoint_sent_before_destination_witness :
  exists front,
    sent (handleOptimize (answers tt) (app page4))
      = Some (front ++ [toPayload (withType salem "destination")]) /\
    sent (handleOptimize (answers tt) (handleWaypointSelect kochi (app page4)))
      = Some (front ++ [toPayload (withType kochi "waypoint")]
              ++ [toPayload (withType salem "destination")]).
Proof.
  exact (waypoint_sent_before_destination unit (answers tt) (answers tt) (app page4)
           (withType pune "start") (withType salem "destination") kochi
           eq_refl eq_refl).
Defined.

(** The destination picked before the waypoint: the list holds Salem at
    index 1 and Kochi at index 2, the request holds them the other way
    round, so an index of the returned order names another location on
    the page than in the back end. *)
Example payload_order_differs_from_list :
  map name (waypoints (app page6)) = ["Pune"; "Salem"; "Kochi"] /\
  option_map (map p_name) (sent (handleOptimize (answers tt) (app page6)))
  = Some ["Pune"; "Kochi"; "Salem"].
Proof. split; reflexivity. Qed.

End Instances.
